(** * Flappy Bird: the game rules of [src/components/Game.tsx]

    A shallow embedding of the [Game] component's rules engine: the
    per-frame callback [gameLoop], the input handlers [jump] and
    [resetGame], and the high-score initialiser.

    Conventions of the embedding.
    - Horizontal quantities ([pipe.x], [canvas.width], [PIPE_WIDTH],
      [PIPE_SPEED], [BIRD_WIDTH]) only ever hold 800 minus multiples of 3 and
      integer constants: they are kept in [Z].  Vertical quantities involve
      [GRAVITY = 0.5] and [Math.random()]: they are kept in [Q], compared
      with [==], [<], [<=].  The bird's values are multiples of 1/2 and stay
      exact in a double; the product and the sum of
      [Math.random() * 250 + 50] are each rounded to the nearest double
      ([round64]).  The collision test compares the bird with the exact
      sums [topHeight + PIPE_GAP] and [topHeight + PIPE_GAP + BIRD_HEIGHT].
    - The score is an integer counted up from 0, kept in [Z]; double
      arithmetic on it is exact below [2^53].  The high score comes out of
      [parseInt] and may also be [NaN] or an infinity.
    - React state ([gameStarted], [gameOver], [score], [highScore]) is a
      field of [State]; a state update issued during a callback is visible
      to the next callback, and [gameLoop] reads the values its closure
      captured, that is the values at the start of the callback.
    - [frameRef.current] holds the handle of the latest
      [requestAnimationFrame] request; the handle the browser returns is an
      input of the tick.
    - The cloud layer and the drawing pass write nothing the rules read and
      are left out. *)

From Stdlib Require Import String Ascii ZArith NArith QArith Qround Qpower Lia
  Lqa Bool List Sorted.
Import ListNotations.

Local Open Scope Z_scope.

(** ** Numbers *)

(** Comparison of rationals as a boolean, for JavaScript's [<] and [>]. *)
Definition Qltb (a b : Q) : bool :=
  match (a ?= b)%Q with Lt => true | _ => false end.

(** A JavaScript number that came out of [parseInt] or holds a score: an
    integer-valued double, an infinity, or [NaN]. *)
Inductive Num : Type :=
| NaN : Num
| Finite (z : Z) : Num
| Infinity (negative : bool) : Num.

(** [n > h] for an integer [n] and a number [h]; every comparison with
    [NaN] is false. *)
Definition gt_num (n : Z) (h : Num) : bool :=
  match h with
  | NaN => false
  | Finite z => z <? n
  | Infinity negative => negative
  end.

(** Rounding of a mathematical integer to the nearest double, ties to even:
    exact below [2^53], an infinity from [2^1024] on. *)
Definition to_double (n : Z) : Num :=
  let a := Z.abs n in
  if a <? 2 ^ 53 then Finite n
  else
    let e := Z.log2 a - 52 in
    let m := Z.shiftr a e in
    let r := a - Z.shiftl m e in
    let half := 2 ^ (e - 1) in
    let m' := if (half <? r) || ((r =? half) && Z.odd m) then m + 1 else m in
    let v := Z.shiftl m' e in
    if 2 ^ 1024 <=? v then Infinity (n <? 0) else Finite (Z.sgn n * v).

(** ** Doubles

    The value a double operation returns: the exact result rounded to the
    nearest binary64 number, ties to the even significand, with the
    gradual underflow of the format below [2^-1022].  Results of magnitude
    [2^1024] and more, which a double turns into an infinity, do not arise
    from the operands below 1000 this is applied to and are not modelled. *)
Definition pow2 (e : Z) : Q := (2 ^ e)%Q.

(** The integer part of the binary logarithm of a positive rational. *)
Definition exponent (q : Q) : Z :=
  let e0 := Z.log2 (Qnum q) - Z.log2 (Zpos (Qden q)) in
  if Qle_bool (pow2 e0) q then e0 else e0 - 1.

(** The nearest integer, ties to even. *)
Definition round_even (m : Q) : Z :=
  let f := Qfloor m in
  match (m - inject_Z f ?= 1 # 2)%Q with
  | Lt => f
  | Gt => f + 1
  | Eq => if Z.even f then f else f + 1
  end.

(** The spacing of the doubles around a positive [q]: 53 significant bits,
    the exponent not below -1022. *)
Definition ulp (q : Q) : Q := pow2 (Z.max (exponent q) (-1022) - 52).

Definition round_pos (q : Q) : Q :=
  (inject_Z (round_even (q / ulp q)) * ulp q)%Q.

Definition round64 (q : Q) : Q :=
  Qred (match Qnum q with
        | 0 => 0
        | Zpos _ => round_pos q
        | Zneg _ => - round_pos (- q)
        end).

(** ** Strings

    A JavaScript string is a sequence of UTF-16 code units. *)
Definition jsstring : Type := list N.

Definition codes (s : string) : jsstring :=
  map N_of_ascii (list_ascii_of_string s).

(** [StrWhiteSpaceChar]: white space and line terminators. *)
Definition is_space (c : N) : bool :=
  existsb (N.eqb c)
    [9; 10; 11; 12; 13; 32; 160; 5760; 8192; 8193; 8194; 8195; 8196; 8197;
     8198; 8199; 8200; 8201; 8202; 8232; 8233; 8239; 8287; 12288; 65279]%N.

Definition is_digit (c : N) : bool := ((48 <=? c) && (c <=? 57))%N.

Definition digit_value (c : N) : Z := Z.of_N c - 48.

Fixpoint trim_start (s : jsstring) : jsstring :=
  match s with
  | c :: s' => if is_space c then trim_start s' else s
  | [] => []
  end.

(** The longest prefix of radix-10 digits, folded into its value; [None]
    when the prefix is empty. *)
Fixpoint leading_digits (acc : option Z) (s : jsstring) : option Z :=
  match s with
  | c :: s' =>
      if is_digit c
      then leading_digits
             (Some (match acc with Some a => a * 10 | None => 0 end
                    + digit_value c)) s'
      else acc
  | [] => acc
  end.

(** [parseInt(s, 10)]: trim leading white space, read one optional sign
    (code unit 45 is [-], 43 is [+]), read the longest run of digits; [NaN]
    when there is none.  ([-0] is [Finite 0]: the two compare and print
    alike here.  An engine may approximate a numeral of more than 20
    significant digits before rounding; the value is taken exactly.) *)
Definition strip_sign (t : jsstring) : Z * jsstring :=
  match t with
  | c :: u =>
      if (c =? 45)%N then (-1, u) else if (c =? 43)%N then (1, u) else (1, t)
  | [] => (1, [])
  end.

Definition parseInt (s : jsstring) : Num :=
  let '(sign, u) := strip_sign (trim_start s) in
  match leading_digits None u with
  | None => NaN
  | Some v => to_double (sign * v)
  end.

(** Decimal digits of a non-negative integer, most significant first. *)
Fixpoint digits_of (fuel : nat) (n : Z) (acc : jsstring) : jsstring :=
  let acc' := (48 + Z.to_N (n mod 10))%N :: acc in
  match fuel with
  | O => acc'
  | S fuel' => if n <? 10 then acc' else digits_of fuel' (n / 10) acc'
  end.

(** [n.toString()] for an integer [n] (below [10^21] in magnitude, where
    JavaScript prints plain decimal digits). *)
Definition toString (n : Z) : jsstring :=
  let a := Z.abs n in
  let ds := digits_of (Z.to_nat (Z.log2 a)) a [] in
  if n <? 0 then 45%N :: ds else ds.

(** ** Constants (lines 23-29) and the canvas (lines 309-310) *)

Definition GRAVITY : Q := 1 # 2.
Definition JUMP_FORCE : Q := -8 # 1.
Definition PIPE_SPEED : Z := 3.
Definition PIPE_WIDTH : Z := 52.
Definition PIPE_GAP : Q := 150 # 1.
Definition BIRD_WIDTH : Z := 34.
Definition BIRD_HEIGHT : Q := 24 # 1.

Definition canvas_width : Z := 800.
Definition canvas_height : Q := 500 # 1.

(** ** Entities (lines 3-13) *)

Record Bird : Type := mkBird {
  y : Q;
  velocity : Q;
  rotation : Z;
  frame : Z
}.

Record Pipe : Type := mkPipe {
  x : Z;
  topHeight : Q
}.

Inductive Sound : Type := Wing | Hit | Point.

Definition Sound_eqb (a b : Sound) : bool :=
  match a, b with
  | Wing, Wing | Hit, Hit | Point, Point => true
  | _, _ => false
  end.

(** The component's state: the four React state cells, the three refs the
    rules use, the [localStorage] item ['flappyBirdHighScore'], and the
    sounds played so far (latest last).  [setGameOver(true)] is always
    followed by the hit sound, so [Hit] also counts those calls. *)
Record State : Type := mkState {
  gameStarted : bool;
  gameOver : bool;
  score : Z;
  highScore : Num;
  birdRef : Bird;
  pipesRef : list Pipe;
  frameRef : Z;
  storage : option jsstring;
  sounds : list Sound
}.

(** The three session states of the specification, read off the two flags. *)
Definition idle (s : State) : bool := negb (gameStarted s) && negb (gameOver s).
Definition playing (s : State) : bool := gameStarted s && negb (gameOver s).

(** ** Initialisation (lines 33-51) *)

Definition initial_bird : Bird := mkBird (250 # 1) 0 0 0.

(** Lines 36-39: [saved ? parseInt(saved, 10) : 0]; the empty string is
    falsy. *)
Definition initHighScore (saved : option jsstring) : Num :=
  match saved with
  | None => Finite 0
  | Some [] => Finite 0
  | Some s => parseInt s
  end.

(** The state after mounting: [saved] is what [localStorage] holds and
    [handle] the handle of the effect's first animation-frame request. *)
Definition init (saved : option jsstring) (handle : Z) : State :=
  mkState false false 0 (initHighScore saved) initial_bird [] handle saved [].

(** ** Input handlers *)

(** [jump], lines 90-103.  Both tests read the flags as they were when the
    handler was created. *)
Definition jump (s : State) : State :=
  let s1 :=
    if negb (gameStarted s)
    then mkState true false 0 (highScore s) initial_bird [] (frameRef s)
           (storage s) (sounds s)
    else s in
  if negb (gameOver s)
  then mkState (gameStarted s1) (gameOver s1) (score s1) (highScore s1)
         (mkBird (y (birdRef s1)) JUMP_FORCE (-20) (frame (birdRef s1)))
         (pipesRef s1) (frameRef s1) (storage s1) (sounds s1 ++ [Wing])
  else s1.

(** [resetGame], lines 105-111. *)
Definition resetGame (s : State) : State :=
  mkState false false 0 (highScore s) initial_bird [] (frameRef s)
    (storage s) (sounds s).

(** ** The per-frame callback *)

(** What the environment supplies to one callback: the handle returned by
    the [requestAnimationFrame] call that ends it, and the value
    [Math.random()] returns if a pipe is generated. *)
Record Frame : Type := mkFrame {
  raf : Z;
  rnd : Q
}.

(** Lines 150-156.  The two sums are stored in lowest terms ([Qred q] is
    the same rational as [q]), which keeps long sessions cheap to run. *)
Definition update_bird (b : Bird) : Bird :=
  let v := Qred (velocity b + GRAVITY) in
  let r := rotation b + 2 in
  mkBird (Qred (y b + v)) v (if 70 <? r then 70 else r)
    (Z.rem (frame b + 1) 3).

(** Lines 168-172: the pipe pushed when the frame counter is a multiple of
    100.  [canvas.height - PIPE_GAP - 100] is the integer 250; the product
    with the draw [r] and the sum with 50 are double operations. *)
Definition new_pipe (r : Q) : Pipe :=
  mkPipe canvas_width
    (round64 (round64 (r * (canvas_height - PIPE_GAP - (100 # 1)))
              + (50 # 1))).

Definition generate_pipes (fr : Z) (r : Q) (ps : list Pipe) : list Pipe :=
  if Z.rem fr 100 =? 0 then ps ++ [new_pipe r] else ps.

(** Lines 174-180. *)
Definition kept (p : Pipe) : bool := - PIPE_WIDTH <? x p.

Definition shift (p : Pipe) : Pipe := mkPipe (x p - PIPE_SPEED) (topHeight p).

Definition update_pipes (ps : list Pipe) : list Pipe :=
  map shift (filter kept ps).

(** Line 183. *)
Definition out_of_bounds (b : Bird) : bool :=
  Qltb (y b) 0 || Qltb canvas_height (y b).

(** Lines 189-198: the two nested conditions of the pipe test. *)
Definition hits (b : Bird) (p : Pipe) : bool :=
  (Qltb (y b) (topHeight p) || Qltb (topHeight p + PIPE_GAP) (y b))
  && (Qltb (topHeight p) (y b + BIRD_HEIGHT)
      && Qltb (y b) (topHeight p + PIPE_GAP + BIRD_HEIGHT)
      && (x p <? BIRD_WIDTH + 50)
      && (50 <? x p + PIPE_WIDTH)).

(** Line 207. *)
Definition in_window (p : Pipe) : bool :=
  (x p + PIPE_WIDTH <? 50) && (47 <? x p + PIPE_WIDTH).

(** Lines 208-216: one queued [setScore] updater.  [hs0] is the high score
    the closure captured; the accumulator carries the score, the high
    score, the stored item and the sounds. *)
Definition score_point (hs0 : Num)
    (acc : Z * Num * option jsstring * list Sound)
    : Z * Num * option jsstring * list Sound :=
  let '(sc, hs, st, played) := acc in
  let newScore := sc + 1 in
  if gt_num newScore hs0
  then (newScore, Finite newScore, Some (toString newScore), played ++ [Point])
  else (newScore, hs, st, played ++ [Point]).

(** [gameLoop], lines 142-273. *)
Definition gameLoop (f : Frame) (s : State) : State :=
  if negb (gameStarted s) || gameOver s
  then mkState (gameStarted s) (gameOver s) (score s) (highScore s)
         (birdRef s) (pipesRef s) (raf f) (storage s) (sounds s)
  else
    let fr := frameRef s + 1 in
    let bird := update_bird (birdRef s) in
    let pipes := update_pipes (generate_pipes fr (rnd f) (pipesRef s)) in
    let crashes :=
      (if out_of_bounds bird then [Hit] else [])
      ++ map (fun _ => Hit) (filter (hits bird) pipes) in
    let '(sc, hs, st, played) :=
      fold_left (fun acc _ => score_point (highScore s) acc)
        (filter in_window pipes)
        (score s, highScore s, storage s, sounds s ++ crashes) in
    mkState (gameStarted s) (match crashes with [] => false | _ => true end)
      sc hs bird pipes (raf f) st played.

(** ** Traces *)

(** What can happen to the component: a frame callback, the two input
    handlers, and React running the loop's effect again (lines 113-280,
    after [gameStarted], [gameOver] or [highScore] changed), which cancels
    the pending request and stores the handle of a new one (line 275). *)
Inductive Action : Type :=
| Tick (f : Frame)
| Jump
| Reset
| Rerun (handle : Z).

Definition rerun (handle : Z) (s : State) : State :=
  mkState (gameStarted s) (gameOver s) (score s) (highScore s) (birdRef s)
    (pipesRef s) handle (storage s) (sounds s).

Definition step (s : State) (a : Action) : State :=
  match a with
  | Tick f => gameLoop f s
  | Jump => jump s
  | Reset => resetGame s
  | Rerun h => rerun h s
  end.

Definition run (acts : list Action) (s : State) : State :=
  fold_left step acts s.

(** Actions that are no player input. *)
Definition passive (a : Action) : bool :=
  match a with Tick _ | Rerun _ => true | Jump | Reset => false end.

Definition is_tick (a : Action) : bool :=
  match a with Tick _ => true | _ => false end.

(** Number of frame callbacks in a trace. *)
Definition ticks (acts : list Action) : nat := length (filter is_tick acts).

(** Every frame callback of the trace finds the session Playing. *)
Fixpoint all_playing (acts : list Action) (s : State) : bool :=
  match acts with
  | [] => true
  | a :: acts' =>
      (if is_tick a then playing s else true) && all_playing acts' (step s a)
  end.

(** The values [Math.random()] can return. *)
Definition unit_interval (r : Q) : Prop := (0 <= r /\ r < 1)%Q.

Definition valid_action (a : Action) : Prop :=
  match a with Tick f => unit_interval (rnd f) | _ => True end.

Definition count_sound (k : Sound) (l : list Sound) : nat :=
  length (filter (Sound_eqb k) l).

(** ** Auxiliary notions used by the statements *)

(** The bird and the pipe list a Playing callback computes, and the number
    of pipes it scores. *)
Definition next_bird (s : State) : Bird := update_bird (birdRef s).

Definition next_pipes (f : Frame) (s : State) : list Pipe :=
  update_pipes (generate_pipes (frameRef s + 1) (rnd f) (pipesRef s)).

Definition points_of (f : Frame) (s : State) : nat :=
  length (filter in_window (next_pipes f s)).

(** What the queued updaters of one callback amount to: [n] points, and the
    high score and the stored item overwritten when the last new score beats
    the captured high score. *)
Definition score_pass (h0 : Num) (n : nat)
    (acc : Z * Num * option jsstring * list Sound)
    : Z * Num * option jsstring * list Sound :=
  let '(sc, hs, st, played) := acc in
  let sc' := sc + Z.of_nat n in
  if negb (Nat.eqb n 0) && gt_num sc' h0
  then (sc', Finite sc', Some (toString sc'), played ++ repeat Point n)
  else (sc', hs, st, played ++ repeat Point n).

(** Sum of [v 1 .. v n]. *)
Fixpoint running_sum (v : nat -> Q) (n : nat) : Q :=
  match n with
  | O => 0
  | S n' => running_sum v n' + v n
  end.

Definition nQ (n : nat) : Q := inject_Z (Z.of_nat n).

(** The gap band of a pipe lies within the playfield, 50 from either edge. *)
Definition gap_fits (p : Pipe) : Prop :=
  (50 # 1 <= topHeight p
   /\ topHeight p + PIPE_GAP <= canvas_height - (50 # 1))%Q.

(** The two halves of the pipe test the specification names: the bird's
    position is outside the gap band (lines 190-191), and the bird's
    horizontal extent [50, 50 + BIRD_WIDTH] meets the pipe's (lines
    196-197). *)
Definition outside_gap (b : Bird) (p : Pipe) : bool :=
  Qltb (y b) (topHeight p) || Qltb (topHeight p + PIPE_GAP) (y b).

Definition overlaps (p : Pipe) : bool :=
  (x p <? BIRD_WIDTH + 50) && (50 <? x p + PIPE_WIDTH).

(** ** Sample sessions *)

(** [n] consecutive callbacks; the browser hands out consecutive handles
    after [h], and [Math.random()] returns [r]. *)
Fixpoint frames (n : nat) (h : Z) (r : Q) : list Action :=
  match n with
  | O => []
  | S n' => Tick (mkFrame (h + 1) r) :: frames n' (h + 1) r
  end.

(** [k] rounds of [period] callbacks followed by a jump. *)
Fixpoint flaps (k period : nat) (h : Z) (r : Q) : list Action :=
  match k with
  | O => []
  | S k' =>
      frames period h r ++ Jump :: flaps k' period (h + Z.of_nat period) r
  end.

(** A freshly mounted component, nothing stored: the effect's first request
    has handle 1. *)
Definition mounted : State := init None 1.

(** The component after 97 idle callbacks: Idle, holding handle 98. *)
Definition lobby : State := run (frames 97 1 0) mounted.

(** The session started by [jump lobby]: the effect runs again and stores
    handle 99, so the first Playing callback generates a pipe.  The player
    then flaps every 31 callbacks, which brings the bird back to 250 each
    time; [n] more callbacks follow the [k]-th round. *)
Definition cruise (r : Q) (k n : nat) : list Action :=
  Rerun 99 :: flaps k 31 99 r ++ frames n (99 + 31 * Z.of_nat k) r.

(** Cruise for 240 callbacks, then flap on every callback: the bird climbs
    to 1.5 while the first pipe, of top height 299.75, slides past. *)
Definition climb : list Action :=
  cruise (999 # 1000) 7 23 ++ Jump :: flaps 27 1 339 (999 # 1000).

(** The bird right after the jump that starts a session, and [n] callbacks
    later if nothing else touches it. *)
Definition launch : Bird := mkBird (250 # 1) JUMP_FORCE (-20) 0.

Definition flight (n : nat) : Bird := Nat.iter n update_bird launch.

(** The callback on which an unattended session ends. *)
Definition fall_out : nat := 51.

(** The state of an unattended session after [n] callbacks. *)
Definition unattended (hit0 : nat) (n : nat) (s : State) : Prop :=
  gameStarted s = true
  /\ gameOver s = (fall_out <=? n)%nat
  /\ birdRef s = flight (Nat.min n fall_out)
  /\ Forall (fun p => canvas_width - PIPE_SPEED * Z.of_nat (Nat.min n fall_out)
                      <= x p) (pipesRef s)
  /\ score s = 0
  /\ count_sound Hit (sounds s)
     = (hit0 + if (fall_out <=? n)%nat then 1 else 0)%nat.

(** The value of a run of digits, and whether a string opens with one. *)
Definition decimal_value (ds : jsstring) : Z :=
  fold_left (fun a c => a * 10 + digit_value c) ds 0.

Definition starts_with_digit (u : jsstring) : bool :=
  match u with
  | c :: _ => is_digit c
  | [] => false
  end.

(** A sign: nothing, [-] or [+]. *)
Definition sign_value (sg : jsstring) : option Z :=
  match sg with
  | [] => Some 1
  | [c] => if (c =? 45)%N then Some (-1)
           else if (c =? 43)%N then Some 1 else None
  | _ => None
  end.

Definition is_reset (a : Action) : bool :=
  match a with Reset => true | _ => false end.

(** A trace within one session: no reset. *)
Definition in_session (acts : list Action) : bool :=
  forallb (fun a => negb (is_reset a)) acts.

(** ** The history of a session

    What each Playing callback generated, newest first: the top height of
    the pipe pushed at line 171, if the frame counter was a multiple of
    100. *)
Definition generated (fr : Z) (r : Q) : option Q :=
  if Z.rem fr 100 =? 0 then Some (topHeight (new_pipe r)) else None.

Fixpoint history (acts : list Action) (s : State) (log : list (option Q))
    : list (option Q) :=
  match acts with
  | [] => log
  | a :: acts' =>
      history acts' (step s a)
        (match a with
         | Tick f =>
             if playing s then generated (frameRef s + 1) (rnd f) :: log
             else log
         | _ => log
         end)
  end.

(** A pipe generated [age] callbacks ago, this callback included. *)
Definition pipe_of_age (age : Z) (top : Q) : Pipe :=
  mkPipe (canvas_width - PIPE_SPEED * age) top.

(** The pipe list a history leaves, oldest pipe first, when its newest
    entry has age [age]: a pipe is listed up to age 284, where it sits at
    -52. *)
Fixpoint pipes_from (log : list (option Q)) (age : Z) : list Pipe :=
  match log with
  | [] => []
  | e :: log' =>
      pipes_from log' (age + 1)
      ++ match e with
         | Some top => if age <=? 284 then [pipe_of_age age top] else []
         | None => []
         end
  end.

Definition is_pipe (e : option Q) : bool :=
  match e with Some _ => true | None => false end.

Definition count_pipes (log : list (option Q)) : nat :=
  length (filter is_pipe log).

(** The callback on which a pipe scores, counted from the one that
    generated it. *)
Definition crossing : nat := 267.

(** * Further parts of the component *)

(** ** What the page shows (lines 316-333)

    The start prompt is rendered when [!gameStarted], the game-over panel
    with its Play Again button when [gameOver]. *)
Definition shows_start_prompt (s : State) : bool := negb (gameStarted s).

Definition shows_game_over_panel (s : State) : bool := gameOver s.

(** ** The wing animation (lines 136-140)

    [getBirdSprite] reads the frame counter, which the drawing pass of a
    Playing callback sees after the increment of line 148.  A negative index
    finds no sprite. *)
Inductive Sprite : Type := Upflap | Midflap | Downflap.

Definition sprites : list Sprite := [Upflap; Midflap; Downflap].

Definition getBirdSprite (fr : Z) : option Sprite :=
  let frame := Z.rem (fr / 10) 3 in
  if frame <? 0 then None else nth_error sprites (Z.to_nat frame).

(** ** What is drawn (lines 236-270)

    A rectangle of the canvas: horizontal interval in [Z], vertical interval
    in [Q].  The top segment of a pipe is drawn mirrored, from [topHeight]
    up to 0; the bottom segment from the end of the gap down to the canvas
    bottom; the bird's sprite, before its rotation, occupies
    [BIRD_WIDTH] by [BIRD_HEIGHT] from (50, [y]). *)
Record Rect : Type := mkRect {
  rect_left : Z;
  rect_right : Z;
  rect_top : Q;
  rect_bottom : Q
}.

Definition top_segment (p : Pipe) : Rect :=
  mkRect (x p) (x p + PIPE_WIDTH) 0 (topHeight p).

Definition bottom_segment (p : Pipe) : Rect :=
  mkRect (x p) (x p + PIPE_WIDTH) (topHeight p + PIPE_GAP)
    (topHeight p + PIPE_GAP + (canvas_height - (topHeight p + PIPE_GAP))).

Definition bird_box (b : Bird) : Rect :=
  mkRect 50 (50 + BIRD_WIDTH) (y b) (y b + BIRD_HEIGHT).

(** Two rectangles share an area. *)
Definition intersects (r1 r2 : Rect) : Prop :=
  rect_left r1 < rect_right r2 /\ rect_left r2 < rect_right r1
  /\ (rect_top r1 < rect_bottom r2)%Q /\ (rect_top r2 < rect_bottom r1)%Q.

(** ** The cloud layer (lines 15-21, 78-87, 158-166)

    A cloud's numbers are doubles, kept in [Q]: every product, sum and
    difference the code computes is rounded with [round64], and a decimal
    literal stands for the double nearest to it.  [Math.random()] is a
    supply of draws, [rand i] being the [i]-th; a function that draws
    returns the index of the next draw. *)

(** The double a decimal literal of the source denotes: [0.5] is
    exact, [0.3], [0.4] and [0.7] are not. *)
Definition literal (q : Q) : Q := round64 q.

Record Cloud : Type := mkCloud {
  cloud_x : Q;
  cloud_y : Q;
  speed : Q;
  scale : Q;
  opacity : Q
}.

(** Lines 80-86: the object literal draws for x, y, speed, scale and
    opacity in this order; [a + r * b] rounds the product, then the sum. *)
Definition new_cloud (rand : nat -> Q) (i : nat) : Cloud :=
  mkCloud (round64 (rand i * (800 # 1)))
    (round64 (rand (i + 1)%nat * (200 # 1)))
    (round64 (literal (3 # 10)
              + round64 (rand (i + 2)%nat * literal (4 # 10))))
    (round64 (literal (5 # 10)
              + round64 (rand (i + 3)%nat * literal (5 # 10))))
    (round64 (literal (4 # 10)
              + round64 (rand (i + 4)%nat * literal (3 # 10)))).

(** Lines 79-87: [n] clouds pushed in order ([n] is 5 in the source). *)
Fixpoint init_clouds (rand : nat -> Q) (i n : nat) : list Cloud :=
  match n with
  | O => []
  | S n' => new_cloud rand i :: init_clouds rand (i + 5) n'
  end.

(** Lines 160-165, one cloud: [cloud.x -= cloud.speed] stores the rounded
    difference, and the test rounds [cloud.x + 100];
    [canvas.width + 100] is the integer 900. *)
Definition update_cloud (rand : nat -> Q) (i : nat) (c : Cloud)
    : Cloud * nat :=
  let x' := round64 (cloud_x c - speed c) in
  if Qltb (round64 (x' + (100 # 1))) 0
  then (mkCloud (inject_Z canvas_width + (100 # 1))
          (round64 (rand i * (200 # 1)))
          (speed c) (scale c)
          (round64 (literal (4 # 10)
                    + round64 (rand (i + 1)%nat * literal (3 # 10)))),
        (i + 2)%nat)
  else (mkCloud x' (cloud_y c) (speed c) (scale c) (opacity c), i).

(** Lines 159-166: the [forEach] over the clouds. *)
Fixpoint update_clouds (rand : nat -> Q) (i : nat) (cs : list Cloud)
    : list Cloud * nat :=
  match cs with
  | [] => ([], i)
  | c :: cs' =>
      let '(c', j) := update_cloud rand i c in
      let '(cs'', k) := update_clouds rand j cs' in
      (c' :: cs'', k)
  end.

(** The cloud pass of one callback: lines 143-146 return before it unless
    the session is Playing. *)
Definition cloud_pass (s : State) (rand : nat -> Q) (i : nat)
    (cs : list Cloud) : list Cloud * nat :=
  if playing s then update_clouds rand i cs else (cs, i).

(** The clouds along a trace: the cloud pass of every callback, with the
    state the callback finds. *)
Fixpoint cloud_run (rand : nat -> Q) (acts : list Action) (s : State)
    (i : nat) (cs : list Cloud) : list Cloud * nat :=
  match acts with
  | [] => (cs, i)
  | a :: acts' =>
      let '(cs', j) :=
        match a with
        | Tick _ => cloud_pass s rand i cs
        | _ => (cs, i)
        end in
      cloud_run rand acts' (step s a) j cs'
  end.

(** Where a cloud can be; every bound is a double. *)
Definition cloud_in_range (c : Cloud) : Prop :=
  (- (100 # 1) <= cloud_x c /\ cloud_x c <= inject_Z canvas_width + (100 # 1)
   /\ 0 <= cloud_y c /\ cloud_y c <= 200 # 1
   /\ literal (3 # 10) <= speed c /\ speed c <= literal (7 # 10)
   /\ 1 # 2 <= scale c /\ scale c <= 1
   /\ literal (4 # 10) <= opacity c /\ opacity c <= literal (7 # 10))%Q.

(** ** Further notions used by the statements *)

(** The bird's numbers stay in these ranges. *)
Definition bird_in_range (s : State) : Prop :=
  let b := birdRef s in
  (-20 <= rotation b <= 70) /\ (0 <= frame b <= 2)
  /\ (JUMP_FORCE <= velocity b)%Q
  /\ (gameOver s = false -> (0 <= y b /\ y b <= canvas_height)%Q).

(** The pipe list is the one some history leaves. *)
Definition laid_out (s : State) : Prop :=
  exists log, pipesRef s = pipes_from log 1.

(** [n(n+1)/4 - 8n]: how far below its start a bird is [n] callbacks after
    a flap. *)
Definition arc (n : nat) : Q :=
  (nQ n * (nQ n + 1) / (4 # 1) - (8 # 1) * nQ n)%Q.

(** What holds after [n] actions: at most [n] points, and the store reads
    back as the high score. *)
Definition in_sync (n : Z) (s : State) : Prop :=
  laid_out s /\ 0 <= score s <= n
  /\ initHighScore (storage s) = highScore s.
(** * Properties *)

(** ** Comparisons *)

Lemma Qltb_lt (a b : Q) : Qltb a b = true <-> (a < b)%Q.
Proof.
  unfold Qltb. rewrite Qlt_alt. destruct (a ?= b)%Q; split; congruence.
Qed.

Lemma Qltb_ge (a b : Q) : Qltb a b = false <-> (b <= a)%Q.
Proof.
  rewrite <- not_true_iff_false, Qltb_lt. split; intro H.
  - apply Qnot_lt_le; exact H.
  - apply Qle_not_lt; exact H.
Qed.

Lemma gt_num_succ (n : Z) (h : Num) :
  gt_num n h = true -> gt_num (n + 1) h = true.
Proof.
  destruct h as [|z|b]; simpl; auto. rewrite !Z.ltb_lt. lia.
Qed.

(** ** The scoring pass *)

Lemma repeat_snoc (A : Type) (a : A) (n : nat) :
  repeat a n ++ [a] = repeat a (S n).
Proof.
  induction n as [|n IH]; simpl; [reflexivity|]. now rewrite IH.
Qed.

Lemma fold_score_point (A : Type) (h0 : Num) (l : list A) acc :
  fold_left (fun a _ => score_point h0 a) l acc
  = score_pass h0 (length l) acc.
Proof.
  induction l as [|p l IH] using rev_ind.
  - destruct acc as [[[sc hs] st] pl]. simpl.
    rewrite Z.add_0_r, app_nil_r. reflexivity.
  - rewrite fold_left_app, IH. simpl.
    destruct acc as [[[sc hs] st] pl].
    rewrite length_app. simpl length.
    replace (length l + 1)%nat with (S (length l)) by lia.
    unfold score_pass, score_point.
    replace (sc + Z.of_nat (S (length l))) with (sc + Z.of_nat (length l) + 1)
      by lia.
    change (negb (Nat.eqb (S (length l)) 0)) with true.
    destruct (gt_num (sc + Z.of_nat (length l) + 1) h0) eqn:G1; simpl andb;
      cbv iota.
    + destruct (negb (Nat.eqb (length l) 0)
                && gt_num (sc + Z.of_nat (length l)) h0);
        rewrite G1, <- app_assoc, repeat_snoc; reflexivity.
    + destruct (gt_num (sc + Z.of_nat (length l)) h0) eqn:G0.
      * apply gt_num_succ in G0. congruence.
      * rewrite andb_false_r, G1, <- app_assoc, repeat_snoc. reflexivity.
Qed.

(** ** The callback, field by field *)

Section Playing_tick.
Variables (f : Frame) (s : State).
Hypothesis Hplay : playing s = true.

Lemma playing_flags : gameStarted s = true /\ gameOver s = false.
Proof.
  unfold playing in Hplay. apply andb_true_iff in Hplay.
  destruct Hplay as [H1 H2]. apply negb_true_iff in H2. auto.
Qed.

Lemma gameLoop_playing :
  gameLoop f s =
  let crashes :=
    (if out_of_bounds (next_bird s) then [Hit] else [])
    ++ map (fun _ => Hit) (filter (hits (next_bird s)) (next_pipes f s)) in
  let '(sc, hs, st, played) :=
    score_pass (highScore s) (points_of f s)
      (score s, highScore s, storage s, sounds s ++ crashes) in
  mkState true (match crashes with [] => false | _ => true end)
    sc hs (next_bird s) (next_pipes f s) (raf f) st played.
Proof.
  destruct playing_flags as [H1 H2].
  unfold gameLoop. rewrite H1, H2. simpl orb. cbv iota.
  cbv zeta. rewrite fold_score_point. reflexivity.
Qed.

(** Reads one field of the state a Playing callback returns. *)
Ltac tick_fields :=
  rewrite gameLoop_playing; cbv zeta; unfold score_pass;
  destruct (_ && _).

Lemma tick_bird : birdRef (gameLoop f s) = next_bird s.
Proof.
  tick_fields; reflexivity.
Qed.

Lemma tick_pipes : pipesRef (gameLoop f s) = next_pipes f s.
Proof.
  tick_fields; reflexivity.
Qed.

Lemma tick_frameRef : frameRef (gameLoop f s) = raf f.
Proof.
  tick_fields; reflexivity.
Qed.

Lemma tick_gameStarted : gameStarted (gameLoop f s) = true.
Proof.
  tick_fields; reflexivity.
Qed.

Lemma tick_gameOver :
  gameOver (gameLoop f s)
  = out_of_bounds (next_bird s)
    || existsb (hits (next_bird s)) (next_pipes f s).
Proof.
  rewrite gameLoop_playing. cbv zeta. unfold score_pass.
  assert (E : forall l : list Pipe,
             match map (fun _ => Hit) (filter (hits (next_bird s)) l) with
             | [] => false | _ => true end = existsb (hits (next_bird s)) l).
  { induction l as [|p l IH]; simpl; [reflexivity|].
    destruct (hits (next_bird s) p); simpl; auto. }
  destruct (_ && _); simpl; destruct (out_of_bounds (next_bird s)); simpl;
    auto.
Qed.

Lemma tick_score : score (gameLoop f s) = score s + Z.of_nat (points_of f s).
Proof.
  tick_fields; reflexivity.
Qed.

Lemma tick_highScore :
  highScore (gameLoop f s)
  = if negb (Nat.eqb (points_of f s) 0)
       && gt_num (score s + Z.of_nat (points_of f s)) (highScore s)
    then Finite (score s + Z.of_nat (points_of f s)) else highScore s.
Proof.
  tick_fields; reflexivity.
Qed.

Lemma tick_storage :
  storage (gameLoop f s)
  = if negb (Nat.eqb (points_of f s) 0)
       && gt_num (score s + Z.of_nat (points_of f s)) (highScore s)
    then Some (toString (score s + Z.of_nat (points_of f s))) else storage s.
Proof.
  tick_fields; reflexivity.
Qed.

Lemma tick_sounds :
  sounds (gameLoop f s)
  = sounds s
    ++ ((if out_of_bounds (next_bird s) then [Hit] else [])
        ++ map (fun _ => Hit) (filter (hits (next_bird s)) (next_pipes f s)))
    ++ repeat Point (points_of f s).
Proof.
  tick_fields; simpl; rewrite <- app_assoc; reflexivity.
Qed.
End Playing_tick.

(** A callback outside Playing only stores the new handle. *)
Lemma gameLoop_not_playing (f : Frame) (s : State) :
  playing s = false -> gameLoop f s = rerun (raf f) s.
Proof.
  unfold playing, gameLoop, rerun. intro H.
  destruct (gameStarted s), (gameOver s); simpl in *; congruence.
Qed.

(** ** Reset *)

(** C8.  [resetGame], from any state whatever, leaves the session Idle
    (neither started nor over) with score 0, no pipes, and the bird at its
    initial position 250, velocity 0, rotation 0 and animation frame 0, the
    bird a freshly mounted component has; the high score and the stored item
    are untouched. *)
Theorem resetGame_restores_idle (s : State) :
  let s' := resetGame s in
  gameStarted s' = false /\ gameOver s' = false /\ idle s' = true
  /\ score s' = 0
  /\ pipesRef s' = []
  /\ birdRef s' = mkBird (250 # 1) 0 0 0
  /\ (forall saved h, birdRef s' = birdRef (init saved h))
  /\ highScore s' = highScore s /\ storage s' = storage s.
Proof.
  cbv zeta. unfold resetGame, idle, init, initial_bird. simpl.
  repeat split; reflexivity.
Qed.

(** ** Pipe recycling *)

Lemma kept_iff (p : Pipe) : kept p = true <-> - PIPE_WIDTH < x p.
Proof. unfold kept. apply Z.ltb_lt. Qed.

Lemma dropped_iff (p : Pipe) : kept p = false <-> x p <= - PIPE_WIDTH.
Proof. unfold kept. rewrite Z.ltb_ge. reflexivity. Qed.

Lemma in_update_pipes (q : Pipe) (ps : list Pipe) :
  In q (update_pipes ps)
  <-> exists p, In p ps /\ - PIPE_WIDTH < x p /\ q = shift p.
Proof.
  unfold update_pipes. rewrite in_map_iff. split.
  - intros (p & E & Hin). apply filter_In in Hin. destruct Hin as [Hin K].
    exists p. rewrite <- kept_iff. auto.
  - intros (p & Hin & K & E). exists p. split; [auto|].
    apply filter_In. rewrite kept_iff. auto.
Qed.

(** C3, as the code has it.  On a Playing tick the pipe list (with the pipe
    generated on this tick, if any) is filtered and then shifted: a pipe is
    dropped if and only if its horizontal position is at most the negative
    of the pipe width, that is its right edge is at or left of 0; the pipes
    that stay keep their order and top height and move left by exactly the
    pipe speed. *)
Theorem pipes_dropped_at_left_edge (f : Frame) (s : State) :
  playing s = true ->
  let before := generate_pipes (frameRef s + 1) (rnd f) (pipesRef s) in
  let after := pipesRef (gameLoop f s) in
  after = map shift (filter kept before)
  /\ (forall p, kept p = false <-> x p + PIPE_WIDTH <= 0)
  /\ (forall q, In q after
        <-> exists p, In p before /\ 0 < x p + PIPE_WIDTH
                      /\ x q = x p - PIPE_SPEED /\ topHeight q = topHeight p)
  /\ length after = length (filter (fun p => 0 <? x p + PIPE_WIDTH) before).
Proof.
  intros Hp before after. subst after. rewrite tick_pipes by exact Hp.
  unfold next_pipes. fold before. repeat split.
  - intro H. apply dropped_iff in H. lia.
  - intro H. apply dropped_iff. lia.
  - intro H. apply in_update_pipes in H. destruct H as (p & Hin & K & E).
    exists p. subst q. simpl. repeat split; auto; lia.
  - intros (p & Hin & K & Ex & Et). apply in_update_pipes.
    exists p. repeat split; auto; [lia|].
    destruct q as [qx qt]. unfold shift. simpl in *. congruence.
  - unfold update_pipes. rewrite length_map. f_equal.
    apply filter_ext. intro p. unfold kept.
    destruct (Z.ltb_spec (- PIPE_WIDTH) (x p)),
             (Z.ltb_spec 0 (x p + PIPE_WIDTH)); auto; lia.
Qed.

(** ** Free fall *)

Lemma nQ_succ (n : nat) : (nQ (S n) == nQ n + 1)%Q.
Proof.
  unfold nQ. rewrite Nat2Z.inj_succ, <- Z.add_1_r, inject_Z_plus. reflexivity.
Qed.

(** Euler integration from any bird: velocity first, then position. *)
Lemma iter_update_bird (b : Bird) (n : nat) :
  let b' := Nat.iter n update_bird b in
  (velocity b' == velocity b + nQ n * GRAVITY
   /\ y b' == y b + running_sum (fun k => velocity b + nQ k * GRAVITY) n)%Q.
Proof.
  induction n as [|n [IHv IHy]]; cbv zeta.
  - simpl. unfold nQ. simpl. split; ring.
  - change (Nat.iter (S n) update_bird b)
      with (update_bird (Nat.iter n update_bird b)).
    set (bn := Nat.iter n update_bird b) in *.
    change (velocity (update_bird bn)) with (Qred (velocity bn + GRAVITY)).
    change (y (update_bird bn))
      with (Qred (y bn + Qred (velocity bn + GRAVITY))).
    rewrite !Qred_correct. cbn [running_sum].
    pose proof (nQ_succ n) as Hn. unfold GRAVITY in *. split; lra.
Qed.

Lemma passive_run_bird (acts : list Action) (s : State) :
  forallb passive acts = true -> all_playing acts s = true ->
  birdRef (run acts s) = Nat.iter (ticks acts) update_bird (birdRef s).
Proof.
  revert s. induction acts as [|a acts IH]; intros s Hpas Hall.
  - reflexivity.
  - simpl in Hpas, Hall. apply andb_true_iff in Hpas, Hall.
    destruct Hpas as [Ha Hpas], Hall as [Hs Hall].
    change (run (a :: acts) s) with (run acts (step s a)).
    rewrite IH by assumption.
    destruct a as [f| | |h]; try discriminate; simpl in Hs.
    + unfold ticks. simpl filter. simpl length. fold (ticks acts).
      simpl step. rewrite tick_bird by exact Hs.
      symmetry. apply Nat.iter_succ_r.
    + reflexivity.
Qed.

(** C5.  After any run of frame callbacks that all find the session
    Playing, with no player input in between, and [N] the number of those
    callbacks: the velocity is the starting velocity plus [N * GRAVITY], and
    the position is the starting position plus the sum of the velocities
    reached after each callback (the velocity is updated before the
    position).  Starting from the initial bird (position 250, velocity 0)
    the velocity is [N * GRAVITY] and the position is 250 plus the sum of
    [1 * GRAVITY .. N * GRAVITY]. *)
Theorem free_fall_integration (acts : list Action) (s : State) :
  forallb passive acts = true ->
  all_playing acts s = true ->
  let N := ticks acts in
  let b0 := birdRef s in
  let b := birdRef (run acts s) in
  (velocity b == velocity b0 + nQ N * GRAVITY
   /\ y b == y b0 + running_sum (fun k => velocity b0 + nQ k * GRAVITY) N)%Q
  /\ (b0 = initial_bird ->
      (velocity b == nQ N * GRAVITY
       /\ y b == (250 # 1) + running_sum (fun k => nQ k * GRAVITY) N)%Q).
Proof.
  intros Hpas Hall N b0 b. subst b.
  rewrite passive_run_bird by assumption. fold N. fold b0.
  destruct (iter_update_bird b0 N) as [Hv Hy].
  split; [split; assumption|]. intro Hb. rewrite Hb in *.
  assert (Hsum : (running_sum
                    (fun k => velocity initial_bird + nQ k * GRAVITY) N
                  == running_sum (fun k => nQ k * GRAVITY) N)%Q).
  { clear. induction N as [|n IH]; simpl; [reflexivity|].
    simpl in IH. unfold GRAVITY in *. lra. }
  simpl in Hv, Hy, Hsum |- *. unfold GRAVITY in *. split; lra.
Qed.

(** Instance: three callbacks from a Playing session holding the initial
    bird. *)
Lemma free_fall_integration_witness :
  let s := mkState true false 0 (Finite 0) initial_bird [] 7 None [] in
  let acts := [Tick (mkFrame 8 0); Tick (mkFrame 9 0); Tick (mkFrame 10 0)] in
  (velocity (birdRef (run acts s)) == 3 # 2
   /\ y (birdRef (run acts s)) == (250 # 1) + (1 # 2) + (2 # 2) + (3 # 2))%Q.
Proof.
  intros s acts.
  destruct (free_fall_integration acts s eq_refl eq_refl) as [_ H].
  destruct (H eq_refl) as [Hv Hy]. split.
  - rewrite Hv. reflexivity.
  - rewrite Hy. reflexivity.
Defined.

(** ** Rounding to a double *)

Lemma pow2_pos (e : Z) : (0 < pow2 e)%Q.
Proof. apply Qpower_0_lt. reflexivity. Qed.

Lemma pow2_add (a b : Z) : (pow2 (a + b) == pow2 a * pow2 b)%Q.
Proof. apply Qpower_plus. discriminate. Qed.

Lemma pow2_le (a b : Z) : a <= b -> (pow2 a <= pow2 b)%Q.
Proof. intro H. apply Qpower_le_compat_l; [exact H|discriminate]. Qed.

Lemma pow2_inject (a : Z) : 0 <= a -> (inject_Z (2 ^ a) == pow2 a)%Q.
Proof. intro H. apply (Zpower_Qpower 2 a H). Qed.

Lemma inject_log2 (n : Z) :
  0 < n ->
  (pow2 (Z.log2 n) <= inject_Z n /\ inject_Z n < pow2 (Z.log2 n + 1))%Q.
Proof.
  intro Hn. destruct (Z.log2_spec n Hn) as [H1 H2].
  pose proof (Z.log2_nonneg n) as H0.
  rewrite <- !pow2_inject by lia. rewrite <- Zle_Qle, <- Zlt_Qlt.
  split; [exact H1|]. now rewrite Z.add_1_r.
Qed.

(** [exponent q] is the integer part of the binary logarithm. *)
Lemma exponent_spec (q : Q) :
  (0 < q)%Q -> (pow2 (exponent q) <= q /\ q < pow2 (exponent q + 1))%Q.
Proof.
  intro Hq. destruct q as [n d].
  assert (Hn : 0 < n) by (unfold Qlt in Hq; simpl in Hq; lia).
  destruct (inject_log2 n Hn) as [N1 N2].
  destruct (inject_log2 (Zpos d) ltac:(lia)) as [D1 D2].
  set (a := Z.log2 n) in *. set (b := Z.log2 (Zpos d)) in *.
  assert (E : (n # d == inject_Z n / inject_Z (Zpos d))%Q) by apply Qmake_Qdiv.
  assert (Dpos : (0 < inject_Z (Zpos d))%Q) by reflexivity.
  assert (Up : (n # d < pow2 (a - b + 1))%Q).
  { rewrite E. apply Qlt_shift_div_r; [exact Dpos|].
    apply Qlt_le_trans with (pow2 (a + 1)); [exact N2|].
    replace (a + 1) with ((a - b + 1) + b) by lia. rewrite pow2_add.
    apply Qmult_le_l; [apply pow2_pos|exact D1]. }
  assert (Lo : (pow2 (a - b - 1) <= n # d)%Q).
  { rewrite E. apply Qle_shift_div_l; [exact Dpos|].
    apply Qle_trans with (pow2 a); [|exact N1].
    replace a with ((a - b - 1) + (b + 1)) at 2 by lia. rewrite pow2_add.
    apply Qmult_le_l; [apply pow2_pos|]. apply Qlt_le_weak. exact D2. }
  unfold exponent. cbn [Qnum Qden]. fold a b. cbv zeta.
  destruct (Qle_bool (pow2 (a - b)) (n # d)) eqn:T.
  - apply Qle_bool_iff in T. split; [exact T|exact Up].
  - assert (T' : (n # d < pow2 (a - b))%Q).
    { apply Qnot_le_lt. intro H. apply Qle_bool_iff in H. congruence. }
    split; [exact Lo|]. replace (a - b - 1 + 1) with (a - b) by lia. exact T'.
Qed.

Lemma exponent_mono (q1 q2 : Q) :
  (0 < q1)%Q -> (q1 <= q2)%Q -> exponent q1 <= exponent q2.
Proof.
  intros H1 H12.
  destruct (exponent_spec q1 H1) as [L1 _].
  destruct (exponent_spec q2) as [_ U2].
  { apply Qlt_le_trans with q1; assumption. }
  assert (H : (pow2 (exponent q1) < pow2 (exponent q2 + 1))%Q).
  { apply Qle_lt_trans with q1; [exact L1|].
    apply Qle_lt_trans with q2; assumption. }
  apply Qpower_lt_compat_l_inv in H; [lia|reflexivity].
Qed.

Lemma round_even_bounds (m : Q) :
  Qfloor m <= round_even m <= Qfloor m + 1.
Proof.
  unfold round_even. cbv zeta.
  destruct (_ ?= _)%Q; [destruct (Z.even _)| |]; lia.
Qed.

Lemma round_even_mono (m1 m2 : Q) :
  (m1 <= m2)%Q -> round_even m1 <= round_even m2.
Proof.
  intro H. pose proof (Qfloor_resp_le m1 m2 H) as Hf.
  destruct (Z.eq_dec (Qfloor m1) (Qfloor m2)) as [E|E].
  - unfold round_even. cbv zeta. rewrite E.
    destruct (m1 - inject_Z (Qfloor m2) ?= 1 # 2)%Q eqn:C1;
      destruct (m2 - inject_Z (Qfloor m2) ?= 1 # 2)%Q eqn:C2;
      try rewrite <- Qeq_alt in *; try rewrite <- Qlt_alt in *;
      try rewrite <- Qgt_alt in *;
      try (destruct (Z.even (Qfloor m2))); try lia; exfalso; lra.
  - pose proof (round_even_bounds m1). pose proof (round_even_bounds m2). lia.
Qed.

Lemma round_even_Z (k : Z) : round_even (inject_Z k) = k.
Proof.
  unfold round_even. cbv zeta. rewrite Qfloor_Z.
  assert (E : (inject_Z k - inject_Z k ?= 1 # 2)%Q = Lt).
  { rewrite <- Qlt_alt. lra. }
  now rewrite E.
Qed.

Lemma exponent_clamped_mono (q1 q2 : Q) :
  (0 < q1)%Q -> (q1 <= q2)%Q ->
  Z.max (exponent q1) (-1022) <= Z.max (exponent q2) (-1022).
Proof. intros H1 H2. pose proof (exponent_mono q1 q2 H1 H2). lia. Qed.

Lemma ulp_pos (q : Q) : (0 < ulp q)%Q.
Proof. apply pow2_pos. Qed.

(** A multiple of the unit that bounds [q] bounds its rounding. *)
Lemma round_pos_le (q : Q) (k : Z) :
  (q <= inject_Z k * ulp q)%Q -> (round_pos q <= inject_Z k * ulp q)%Q.
Proof.
  intro H. unfold round_pos. apply Qmult_le_compat_r.
  - rewrite <- Zle_Qle. rewrite <- (round_even_Z k). apply round_even_mono.
    apply Qle_shift_div_r; [apply ulp_pos|exact H].
  - apply Qlt_le_weak, ulp_pos.
Qed.

Lemma round_pos_ge (q : Q) (k : Z) :
  (inject_Z k * ulp q <= q)%Q -> (inject_Z k * ulp q <= round_pos q)%Q.
Proof.
  intro H. unfold round_pos. apply Qmult_le_compat_r.
  - rewrite <- Zle_Qle. rewrite <- (round_even_Z k) at 1.
    apply round_even_mono.
    apply Qle_shift_div_l; [apply ulp_pos|exact H].
  - apply Qlt_le_weak, ulp_pos.
Qed.

Lemma round_pos_upper (q : Q) :
  (0 < q)%Q -> (round_pos q <= pow2 (Z.max (exponent q) (-1022) + 1))%Q.
Proof.
  intro Hq. destruct (exponent_spec q Hq) as [_ U].
  set (E := Z.max (exponent q) (-1022)).
  assert (P : (pow2 (E + 1) == inject_Z (2 ^ 53) * ulp q)%Q).
  { unfold ulp. fold E. rewrite pow2_inject by lia. rewrite <- pow2_add.
    replace (53 + (E - 52)) with (E + 1) by lia. reflexivity. }
  rewrite P. apply round_pos_le. rewrite <- P.
  apply Qlt_le_weak. apply Qlt_le_trans with (pow2 (exponent q + 1));
    [exact U|]. apply pow2_le. lia.
Qed.

Lemma round_pos_lower (q : Q) :
  (0 < q)%Q -> -1022 <= exponent q -> (pow2 (exponent q) <= round_pos q)%Q.
Proof.
  intros Hq He. destruct (exponent_spec q Hq) as [L _].
  assert (P : (pow2 (exponent q) == inject_Z (2 ^ 52) * ulp q)%Q).
  { unfold ulp. rewrite Z.max_l by lia. rewrite pow2_inject by lia.
    rewrite <- pow2_add.
    replace (52 + (exponent q - 52)) with (exponent q) by lia. reflexivity. }
  rewrite P. apply round_pos_ge. rewrite <- P. exact L.
Qed.

Lemma round_pos_nonneg (q : Q) : (0 < q)%Q -> (0 <= round_pos q)%Q.
Proof.
  intro Hq. setoid_replace 0%Q with (inject_Z 0 * ulp q)%Q by ring.
  apply round_pos_ge. setoid_replace (inject_Z 0 * ulp q)%Q with 0%Q by ring.
  apply Qlt_le_weak. exact Hq.
Qed.

Lemma round_pos_mono (q1 q2 : Q) :
  (0 < q1)%Q -> (q1 <= q2)%Q -> (round_pos q1 <= round_pos q2)%Q.
Proof.
  intros H1 H12.
  assert (H2 : (0 < q2)%Q) by (apply Qlt_le_trans with q1; assumption).
  pose proof (exponent_clamped_mono q1 q2 H1 H12) as HE.
  destruct (Z.eq_dec (Z.max (exponent q1) (-1022))
                     (Z.max (exponent q2) (-1022))) as [E|E].
  - assert (U : ulp q1 = ulp q2) by (unfold ulp; now rewrite E).
    unfold round_pos. rewrite U. apply Qmult_le_compat_r.
    + rewrite <- Zle_Qle. apply round_even_mono.
      apply Qmult_le_compat_r; [exact H12|].
      apply Qlt_le_weak, Qinv_lt_0_compat, ulp_pos.
    + apply Qlt_le_weak, ulp_pos.
  - apply Qle_trans with (pow2 (Z.max (exponent q1) (-1022) + 1));
      [apply round_pos_upper; exact H1|].
    apply Qle_trans with (pow2 (exponent q2));
      [apply pow2_le; lia|apply round_pos_lower; [exact H2|lia]].
Qed.

Lemma Qnum_sign (q : Q) :
  (Qnum q = 0 /\ (q == 0)%Q)
  \/ (exists p, Qnum q = Zpos p /\ (0 < q)%Q)
  \/ (exists p, Qnum q = Zneg p /\ (q < 0)%Q /\ (0 < - q)%Q
               /\ Qnum (- q) = Zpos p).
Proof.
  destruct q as [[|p|p] d]; [left|right; left|right; right].
  - split; reflexivity.
  - exists p. split; reflexivity.
  - exists p. repeat split; reflexivity.
Qed.

(** Rounding keeps the order. *)
Theorem round64_mono (q1 q2 : Q) :
  (q1 <= q2)%Q -> (round64 q1 <= round64 q2)%Q.
Proof.
  intro H. unfold round64. rewrite !Qred_correct.
  destruct (Qnum_sign q1) as [[E1 Z1]|[(p1 & E1 & P1)|(p1 & E1 & N1 & M1 & _)]];
    destruct (Qnum_sign q2)
      as [[E2 Z2]|[(p2 & E2 & P2)|(p2 & E2 & N2 & M2 & _)]];
    rewrite E1, E2.
  - apply Qle_refl.
  - apply round_pos_nonneg. exact P2.
  - exfalso. lra.
  - exfalso. lra.
  - apply round_pos_mono; assumption.
  - exfalso. lra.
  - pose proof (round_pos_nonneg (- q1) M1). lra.
  - pose proof (round_pos_nonneg (- q1) M1).
    pose proof (round_pos_nonneg q2 P2). lra.
  - assert (H' : (- q2 <= - q1)%Q) by lra.
    pose proof (round_pos_mono (- q2) (- q1) M2 H'). lra.
Qed.

Lemma round64_le (q c : Q) :
  (round64 c == c)%Q -> (q <= c)%Q -> (round64 q <= c)%Q.
Proof. intros Hc H. rewrite <- Hc. now apply round64_mono. Qed.

Lemma round64_ge (q c : Q) :
  (round64 c == c)%Q -> (c <= q)%Q -> (c <= round64 q)%Q.
Proof. intros Hc H. rewrite <- Hc. now apply round64_mono. Qed.

(** The pipe generator at the two ends of its range and at a draw whose
    exact result is not a double: the largest double below 1 gives exactly
    300, the draw 0 gives 50, and the double nearest to 0.56 gives exactly
    190. *)
Lemma new_pipe_samples :
  (topHeight (new_pipe (1 - (1 # 2 ^ 53))) == 300 # 1
   /\ topHeight (new_pipe 0) == 50 # 1
   /\ topHeight (new_pipe (round64 (56 # 100))) == 190 # 1
   /\ ~ round64 (56 # 100) * (250 # 1) + (50 # 1) == 190 # 1)%Q.
Proof.
  repeat split; try (vm_compute; reflexivity). vm_compute. discriminate.
Qed.

(** ** The gap fits the playfield *)

Lemma new_pipe_fits (r : Q) : unit_interval r -> gap_fits (new_pipe r).
Proof.
  unfold unit_interval, gap_fits, new_pipe, PIPE_GAP, canvas_height.
  cbn [topHeight]. intros [H0 H1].
  assert (Hm : (0 <= round64 (r * ((500 # 1) - (150 # 1) - (100 # 1)))
                /\ round64 (r * ((500 # 1) - (150 # 1) - (100 # 1)))
                   <= 250 # 1)%Q).
  { split; [apply round64_ge|apply round64_le];
      [vm_compute; reflexivity|lra|vm_compute; reflexivity|lra]. }
  generalize dependent (round64 (r * ((500 # 1) - (150 # 1) - (100 # 1)))).
  intros m [Hm0 Hm1].
  assert (Ht : (50 # 1 <= round64 (m + (50 # 1))
                /\ round64 (m + (50 # 1)) <= 300 # 1)%Q).
  { split; [apply round64_ge|apply round64_le];
      [vm_compute; reflexivity|lra|vm_compute; reflexivity|lra]. }
  split; lra.
Qed.

Lemma update_pipes_fits (ps : list Pipe) :
  Forall gap_fits ps -> Forall gap_fits (update_pipes ps).
Proof.
  intro H. apply Forall_forall. intros q Hq.
  apply in_update_pipes in Hq. destruct Hq as (p & Hin & _ & ->).
  rewrite Forall_forall in H. exact (H p Hin).
Qed.

Lemma step_fits (a : Action) (s : State) :
  valid_action a ->
  Forall gap_fits (pipesRef s) -> Forall gap_fits (pipesRef (step s a)).
Proof.
  intros Ha Hs. destruct a as [f| | |h]; simpl.
  - destruct (playing s) eqn:Hp.
    + rewrite tick_pipes by exact Hp. unfold next_pipes.
      apply update_pipes_fits.
      unfold generate_pipes. destruct (_ =? _); [|exact Hs].
      apply Forall_app. split; [exact Hs|].
      constructor; [|constructor]. apply new_pipe_fits. exact Ha.
    + rewrite gameLoop_not_playing by exact Hp. exact Hs.
  - unfold jump. destruct (gameStarted s), (gameOver s); simpl;
      solve [exact Hs | constructor].
  - constructor.
  - exact Hs.
Qed.

(** C9.  Whatever [Math.random()] returns in [0, 1), the pipe generated has
    a top height of at least 50 and its top height plus the gap is at most
    the canvas height minus 50; and after any sequence of callbacks, jumps,
    resets and effect re-runs from a freshly mounted component, every pipe
    in the list satisfies both bounds.  The top height is the double the
    code computes, the product and the sum each rounded. *)
Theorem every_pipe_gap_fits (saved : option jsstring) (h : Z)
    (acts : list Action) :
  Forall valid_action acts ->
  (forall r, unit_interval r ->
     (50 # 1 <= topHeight (new_pipe r)
      /\ topHeight (new_pipe r) + PIPE_GAP <= canvas_height - (50 # 1))%Q)
  /\ Forall gap_fits (pipesRef (run acts (init saved h))).
Proof.
  intro Hv. split; [exact new_pipe_fits|].
  assert (G : forall s, Forall gap_fits (pipesRef s) ->
                        Forall gap_fits (pipesRef (run acts s))).
  { induction Hv as [|a acts Ha Hv IH]; intros s Hs; [exact Hs|].
    apply IH. apply step_fits; assumption. }
  apply G. constructor.
Qed.

Lemma frames_valid (n : nat) (r : Q) :
  unit_interval r -> forall h, Forall valid_action (frames n h r).
Proof.
  intro Hr. induction n as [|n IH]; intro h; simpl; constructor; auto.
Qed.

(** Instance: the lobby, the starting jump, and the first Playing callback,
    which generates a pipe of top height 150. *)
Lemma every_pipe_gap_fits_witness :
  let acts := frames 97 1 0 ++ Jump :: cruise (4 # 10) 0 1 in
  pipesRef (run acts (init None 1))
  = [mkPipe 797 (topHeight (new_pipe (4 # 10)))]
  /\ Forall gap_fits (pipesRef (run acts (init None 1))).
Proof.
  cbv zeta. split; [vm_compute; reflexivity|].
  apply (every_pipe_gap_fits None 1
           (frames 97 1 0 ++ Jump :: cruise (4 # 10) 0 1)).
  apply Forall_app. split.
  - apply frames_valid. unfold unit_interval. split; [discriminate|reflexivity].
  - repeat constructor; discriminate.
Defined.

(** ** Collision *)

Lemma hits_split (b : Bird) (p : Pipe) :
  hits b p
  = outside_gap b p
    && (Qltb (topHeight p) (y b + BIRD_HEIGHT)
        && Qltb (y b) (topHeight p + PIPE_GAP + BIRD_HEIGHT))
    && overlaps p.
Proof.
  unfold hits, outside_gap, overlaps.
  now rewrite <- !andb_assoc.
Qed.

(** A Playing callback ends the session exactly when the bird is out of the
    canvas or the pipe test fires for some pipe. *)
Lemma crash_iff (f : Frame) (s : State) :
  playing s = true ->
  (gameOver (gameLoop f s) = true
   <-> out_of_bounds (birdRef (gameLoop f s)) = true
       \/ exists p, In p (pipesRef (gameLoop f s))
                    /\ hits (birdRef (gameLoop f s)) p = true).
Proof.
  intro Hp. rewrite tick_gameOver, tick_bird, tick_pipes by exact Hp.
  rewrite orb_true_iff, existsb_exists. reflexivity.
Qed.

(** The pipe test fires only for a pipe the bird overlaps horizontally while
    its position is outside the gap band ... *)
Lemma hits_sound (b : Bird) (p : Pipe) :
  hits b p = true -> outside_gap b p = true /\ overlaps p = true.
Proof.
  rewrite hits_split, !andb_true_iff. tauto.
Qed.

(** ... and only within [BIRD_HEIGHT] of an end of the gap. *)
Lemma hits_reach (b : Bird) (p : Pipe) :
  hits b p = true ->
  (topHeight p - BIRD_HEIGHT < y b /\ y b < topHeight p
   \/ topHeight p + PIPE_GAP < y b
      /\ y b < topHeight p + PIPE_GAP + BIRD_HEIGHT)%Q.
Proof.
  rewrite hits_split. unfold outside_gap.
  rewrite !andb_true_iff, orb_true_iff, !Qltb_lt.
  unfold BIRD_HEIGHT, PIPE_GAP. intros [[[H|H] [H1 H2]] _]; [left|right];
    split; lra.
Qed.

(** C1, at a state the game reaches.  After cruising for 247 callbacks the
    session is Playing; on the next callback the bird is at 250 and the
    first pipe spans [56, 108] horizontally, over the bird's [50, 84], with
    its top segment reaching down to 299.75: the bird, even with its height
    of 24, is wholly above the gap band, inside the top segment.  The
    callback does not end the session.  The session stays Playing for the
    whole passage: 20 callbacks later, the player having flapped once more,
    the pipe is scored. *)
Theorem bird_flies_through_top_segment :
  let s := run (cruise (999 # 1000) 7 30) (jump lobby) in
  let s' := gameLoop (mkFrame 347 (999 # 1000)) s in
  let b := birdRef s' in
  playing s = true
  /\ (exists p, In p (pipesRef s')
                /\ outside_gap b p = true /\ overlaps p = true
                /\ (y b + BIRD_HEIGHT < topHeight p)%Q
                /\ hits b p = false)
  /\ out_of_bounds b = false
  /\ gameOver s' = false
  /\ (let s'' := run (cruise (999 # 1000) 8 20) (jump lobby) in
      playing s'' = true /\ score s'' = 1).
Proof.
  cbv zeta. split; [vm_compute; reflexivity|]. split.
  - exists (mkPipe 56 (topHeight (new_pipe (999 # 1000)))).
    vm_compute. repeat split; auto.
  - vm_compute. auto.
Qed.

(** C3, the rule as the specification words it, fails at a state the game
    reaches: after cruising for 284 callbacks the first pipe is at -52, so
    its right edge is at 0, which is not less than -52; the next callback
    drops it all the same. *)
Lemma pipe_at_left_edge_is_dropped :
  let s := run (cruise (4 # 10) 9 5) (jump lobby) in
  let p := mkPipe (-52) (topHeight (new_pipe (4 # 10))) in
  playing s = true
  /\ pipesRef s = p :: tl (pipesRef s)
  /\ ~ (x p + PIPE_WIDTH < - PIPE_WIDTH)
  /\ pipesRef (gameLoop (mkFrame 384 (4 # 10)) s) = map shift (tl (pipesRef s))
  /\ length (pipesRef (gameLoop (mkFrame 384 (4 # 10)) s)) = 2%nat.
Proof.
  cbv zeta.
  split; [vm_compute; reflexivity|]. split; [vm_compute; reflexivity|].
  split; [vm_compute; discriminate|].
  split; vm_compute; reflexivity.
Qed.

(** Instance: the callback of that state. *)
Lemma pipes_dropped_at_left_edge_witness :
  let s := run (cruise (4 # 10) 9 5) (jump lobby) in
  let f := mkFrame 384 (4 # 10) in
  pipesRef (gameLoop f s)
  = map shift
      (filter kept (generate_pipes (frameRef s + 1) (rnd f) (pipesRef s)))
  /\ length (pipesRef (gameLoop f s)) = 2%nat.
Proof.
  cbv zeta.
  destruct (pipes_dropped_at_left_edge (mkFrame 384 (4 # 10))
              (run (cruise (4 # 10) 9 5) (jump lobby)))
    as (Hlist & _ & _ & Hlen).
  - vm_compute. reflexivity.
  - split; [exact Hlist|]. rewrite Hlen. vm_compute. reflexivity.
Defined.

(** ** Scoring on the tick that ends the session *)

(** C10.  On a Playing callback that ends the session, the scoring pass
    still runs: if some pipe's trailing edge is in the scoring window after
    the shift, the score grows by the number of such pipes (at least one), a
    point sound is played for each, and the high score and the stored item
    are overwritten with the new score when it beats the high score. *)
Theorem crash_tick_still_scores (f : Frame) (s : State) :
  playing s = true ->
  gameOver (gameLoop f s) = true ->
  (exists p, In p (pipesRef (gameLoop f s)) /\ in_window p = true) ->
  let s' := gameLoop f s in
  let n := length (filter in_window (pipesRef s')) in
  (1 <= n)%nat
  /\ score s' = score s + Z.of_nat n
  /\ score s < score s'
  /\ count_sound Point (sounds s') = (count_sound Point (sounds s) + n)%nat
  /\ (gt_num (score s') (highScore s) = true ->
      highScore s' = Finite (score s')
      /\ storage s' = Some (toString (score s')))
  /\ (gt_num (score s') (highScore s) = false ->
      highScore s' = highScore s /\ storage s' = storage s).
Proof.
  intros Hp Hover (p & Hin & Hw) s' n.
  assert (Hn : (1 <= n)%nat).
  { subst n. assert (Hf : In p (filter in_window (pipesRef s')))
      by (apply filter_In; auto).
    destruct (filter in_window (pipesRef s')); [contradiction|simpl; lia]. }
  assert (Hsc : score s' = score s + Z.of_nat n).
  { subst s' n. rewrite tick_score, tick_pipes by exact Hp. reflexivity. }
  assert (Hne : negb (Nat.eqb n 0) = true).
  { apply negb_true_iff, Nat.eqb_neq. lia. }
  split; [exact Hn|]. split; [exact Hsc|]. split; [lia|]. split.
  - subst s'. rewrite tick_sounds by exact Hp. unfold points_of.
    rewrite <- tick_pipes by exact Hp.
    fold n. unfold count_sound. rewrite !filter_app, !length_app.
    assert (H1 : forall l : list Pipe,
               length (filter (Sound_eqb Point) (map (fun _ => Hit) l)) = O)
      by (induction l; simpl; auto).
    assert (H2 : forall k,
               length (filter (Sound_eqb Point) (repeat Point k)) = k)
      by (induction k; simpl; auto).
    rewrite H1, H2. destruct (out_of_bounds _); simpl; lia.
  - subst s'. rewrite tick_highScore, tick_storage by exact Hp.
    unfold points_of. rewrite <- tick_pipes by exact Hp. fold n.
    rewrite <- Hsc, Hne. simpl andb.
    split; intros ->; auto.
Qed.

(** Instance, at a state the game reaches: after the climb the bird is at
    1.5 and the first pipe's trailing edge at 51; the next callback takes
    the bird to -6, out of the canvas, and the trailing edge to 48. *)
Lemma crash_tick_still_scores_witness :
  let s := run climb (jump lobby) in
  let s' := gameLoop (mkFrame 367 0) s in
  score s = 0 /\ score s' = 1 /\ gameOver s' = true
  /\ highScore s' = Finite 1 /\ storage s' = Some (codes "1").
Proof.
  cbv zeta.
  assert (Hp : playing (run climb (jump lobby)) = true)
    by (vm_compute; reflexivity).
  assert (Ho : gameOver (gameLoop (mkFrame 367 0) (run climb (jump lobby)))
               = true)
    by (vm_compute; reflexivity).
  assert (Hw : exists p,
             In p (pipesRef (gameLoop (mkFrame 367 0) (run climb (jump lobby))))
             /\ in_window p = true).
  { exists (mkPipe (-4) (topHeight (new_pipe (999 # 1000)))).
    split; vm_compute; auto. }
  destruct (crash_tick_still_scores (mkFrame 367 0) (run climb (jump lobby))
              Hp Ho Hw) as (Hn & Hsc & Hlt & Hsnd & Hhi & Hlo).
  split; [vm_compute; reflexivity|].
  split; [vm_compute; reflexivity|].
  split; [exact Ho|].
  assert (G : gt_num (score (gameLoop (mkFrame 367 0) (run climb (jump lobby))))
                (highScore (run climb (jump lobby))) = true)
    by (vm_compute; reflexivity).
  destruct (Hhi G) as [H1 H2]. split.
  - rewrite H1. vm_compute. reflexivity.
  - rewrite H2. vm_compute. reflexivity.
Defined.

(** ** The unattended session *)

Lemma flight_succ (n : nat) : update_bird (flight n) = flight (S n).
Proof. reflexivity. Qed.

(** A property of the first [n] birds of the flight, checked by running
    it. *)
Lemma flight_forall (P : nat -> bool) (n : nat) :
  forallb P (seq 0 n) = true -> forall k, (k < n)%nat -> P k = true.
Proof.
  intros H k Hk. rewrite forallb_forall in H. apply H, in_seq. lia.
Qed.

Lemma flight_in_bounds (k : nat) :
  (k < fall_out)%nat -> out_of_bounds (flight k) = false.
Proof.
  intro Hk. apply negb_true_iff.
  revert k Hk. apply flight_forall. vm_compute. reflexivity.
Qed.

Lemma flight_falls_out : out_of_bounds (flight fall_out) = true.
Proof. vm_compute. reflexivity. Qed.

(** Pipes far to the right of the bird neither hit nor score. *)
Lemma far_pipes_idle (b : Bird) (ps : list Pipe) :
  Forall (fun p => BIRD_WIDTH + 50 <= x p) ps ->
  filter (hits b) ps = [] /\ filter in_window ps = [].
Proof.
  induction 1 as [|p ps Hp _ [IH1 IH2]]; [auto|]. simpl.
  rewrite IH1, IH2, hits_split. unfold overlaps, in_window.
  unfold BIRD_WIDTH, PIPE_WIDTH in *.
  destruct (Z.ltb_spec (x p) (34 + 50)); [lia|].
  destruct (Z.ltb_spec (x p + 52) 50); [lia|].
  rewrite !andb_false_r. auto.
Qed.

Lemma generated_pipes_far (n : Z) (fr : Z) (r : Q) (ps : list Pipe) :
  0 <= n ->
  Forall (fun p => canvas_width - PIPE_SPEED * n <= x p) ps ->
  Forall (fun p => canvas_width - PIPE_SPEED * (n + 1) <= x p)
    (update_pipes (generate_pipes fr r ps)).
Proof.
  intros Hn H. apply Forall_forall. intros q Hq.
  apply in_update_pipes in Hq. destruct Hq as (p & Hin & _ & ->).
  unfold generate_pipes in Hin. rewrite Forall_forall in H.
  unfold shift, canvas_width, PIPE_SPEED in *. cbn [x].
  destruct (_ =? _).
  - apply in_app_or in Hin. destruct Hin as [Hin|[<-|[]]].
    + specialize (H p Hin). cbn beta in H. lia.
    + unfold new_pipe, canvas_width. cbn [x]. lia.
  - specialize (H p Hin). cbn beta in H. lia.
Qed.

Lemma unattended_step (hit0 n : nat) (s : State) (a : Action) :
  passive a = true -> unattended hit0 n s ->
  unattended hit0 (if is_tick a then S n else n) (step s a).
Proof.
  intros Ha (Hgs & Hgo & Hb & Hps & Hsc & Hh).
  destruct a as [f| | |h]; try discriminate; simpl is_tick; cbv iota;
    [|repeat split; assumption].
  simpl step. unfold unattended. destruct (Nat.leb_spec fall_out n) as [Hn|Hn].
  - (* the session is over: the callback only stores the handle *)
    rewrite gameLoop_not_playing
      by (unfold playing; rewrite Hgs, Hgo; reflexivity).
    replace (Nat.min (S n) fall_out) with (Nat.min n fall_out) by lia.
    destruct (Nat.leb_spec fall_out (S n)); [|lia].
    repeat split; assumption.
  - assert (Hp : playing s = true)
      by (unfold playing; rewrite Hgs, Hgo; reflexivity).
    replace (Nat.min n fall_out) with n in * by lia.
    replace (Nat.min (S n) fall_out) with (S n) by lia.
    assert (Hfar := generated_pipes_far (Z.of_nat n) (frameRef s + 1) (rnd f)
                      (pipesRef s) (Nat2Z.is_nonneg n) Hps).
    replace (Z.of_nat n + 1) with (Z.of_nat (S n)) in Hfar by lia.
    assert (Hfar' : Forall (fun p => BIRD_WIDTH + 50 <= x p)
                      (update_pipes
                         (generate_pipes (frameRef s + 1) (rnd f)
                            (pipesRef s)))).
    { eapply Forall_impl; [|exact Hfar]. cbn beta. intros p Hx.
      unfold canvas_width, PIPE_SPEED, BIRD_WIDTH, fall_out in *. lia. }
    destruct (far_pipes_idle (flight (S n)) _ Hfar') as [Hnohit Hnowin].
    rewrite tick_gameStarted, tick_gameOver, tick_bird, tick_pipes,
      tick_score, tick_sounds by exact Hp.
    unfold points_of, next_pipes, next_bird.
    rewrite Hb, flight_succ, Hnohit, Hnowin. simpl length. simpl repeat.
    rewrite app_nil_r, app_nil_r.
    assert (Hex : existsb (hits (flight (S n)))
                    (update_pipes
                       (generate_pipes (frameRef s + 1) (rnd f) (pipesRef s)))
                  = false).
    { apply not_true_iff_false. intro E. apply existsb_exists in E.
      destruct E as (p & Hin & Hhit).
      assert (In p (filter (hits (flight (S n)))
                      (update_pipes
                         (generate_pipes (frameRef s + 1) (rnd f)
                            (pipesRef s)))))
        by (apply filter_In; auto).
      rewrite Hnohit in *. contradiction. }
    rewrite Hex, orb_false_r.
    unfold count_sound in *. rewrite filter_app, length_app, Hh.
    destruct (Nat.leb_spec fall_out (S n)) as [Hn'|Hn'].
    + assert (E : S n = fall_out) by lia. rewrite E in *.
      rewrite flight_falls_out.
      repeat (split; [first [reflexivity | exact Hfar | lia]|]).
      cbn [filter Sound_eqb length]. lia.
    + rewrite flight_in_bounds by lia.
      repeat (split; [first [reflexivity | exact Hfar | lia]|]).
      cbn [filter length]. lia.
Qed.

Lemma unattended_run (hit0 : nat) (acts : list Action) :
  forallb passive acts = true ->
  forall n s, unattended hit0 n s ->
              unattended hit0 (n + ticks acts) (run acts s).
Proof.
  induction acts as [|a acts IH]; intros Hpas n s Hs.
  - unfold ticks. simpl. rewrite Nat.add_0_r. exact Hs.
  - simpl in Hpas. apply andb_true_iff in Hpas. destruct Hpas as [Ha Hpas].
    change (run (a :: acts) s) with (run acts (step s a)).
    pose proof (IH Hpas _ _ (unattended_step hit0 n s a Ha Hs)) as H.
    unfold ticks in *. simpl filter.
    destruct (is_tick a); simpl length;
      [replace (n + S (length (filter is_tick acts)))%nat
         with (S n + length (filter is_tick acts))%nat by lia|];
      exact H.
Qed.

(** C6, as the code has it.  Start a session by a jump from Idle and supply
    no further input.  The jump launches the bird upwards with velocity -8,
    so its vertical position first strictly decreases, for 15 callbacks, is
    unchanged on the 16th, and strictly increases on every callback from the
    17th to the 51st; it stays within the canvas for the first 50 callbacks
    and exceeds the canvas height on the 51st.  Whatever the handles and
    random values, after [n] callbacks the bird is the bird of that flight
    (frozen at the 51st), the session is over exactly when [n >= 51], and
    the GameOver transition with its hit sound has happened exactly once
    from then on and not at all before. *)
Theorem unattended_session (s : State) (acts : list Action) :
  idle s = true ->
  forallb passive acts = true ->
  let s0 := jump s in
  let s' := run acts s0 in
  let n := ticks acts in
  (playing s0 = true /\ birdRef s0 = launch /\ velocity launch = -8 # 1)
  /\ birdRef s' = flight (Nat.min n fall_out)
  /\ gameOver s' = (fall_out <=? n)%nat
  /\ playing s' = (n <? fall_out)%nat
  /\ count_sound Hit (sounds s')
     = (count_sound Hit (sounds s) + if (fall_out <=? n)%nat then 1 else 0)%nat
  /\ (forall k, (1 <= k <= 15)%nat -> (y (flight k) < y (flight (k - 1)))%Q)
  /\ (y (flight 16) == y (flight 15))%Q
  /\ (forall k, (17 <= k <= fall_out)%nat ->
                 (y (flight (k - 1)) < y (flight k))%Q)
  /\ (forall k, (k < fall_out)%nat -> (0 <= y (flight k) <= canvas_height)%Q)
  /\ (canvas_height < y (flight fall_out))%Q.
Proof.
  intros Hidle Hpas s0 s' n.
  unfold idle in Hidle. apply andb_true_iff in Hidle.
  destruct Hidle as [Hgs Hgo]. apply negb_true_iff in Hgs, Hgo.
  assert (H0 : unattended (count_sound Hit (sounds s)) 0 s0).
  { subst s0. unfold unattended, jump. rewrite Hgs, Hgo. simpl.
    repeat split; auto.
    unfold count_sound. rewrite filter_app, length_app. simpl. lia. }
  pose proof (unattended_run (count_sound Hit (sounds s)) acts Hpas _ _ H0
              : unattended (count_sound Hit (sounds s)) n s')
    as (Ggs & Ggo & Gb & _ & _ & Gh).
  split.
  { subst s0. unfold playing, jump. rewrite Hgs, Hgo. simpl.
    repeat split; reflexivity. }
  split; [exact Gb|]. split; [exact Ggo|]. split.
  { unfold playing. rewrite Ggs, Ggo.
    destruct (Nat.leb_spec fall_out n), (Nat.ltb_spec n fall_out);
      try reflexivity; exfalso; lia. }
  split; [exact Gh|].
  split.
  { intros k Hk.
    assert (E : forallb (fun k => (k =? 0)%nat
                                  || Qltb (y (flight k)) (y (flight (k - 1))))
                  (seq 0 16) = true) by (vm_compute; reflexivity).
    pose proof (flight_forall _ _ E k ltac:(lia)) as Hk'. simpl in Hk'.
    apply orb_true_iff in Hk'. destruct Hk' as [Hk'|Hk'].
    - apply Nat.eqb_eq in Hk'. lia.
    - apply Qltb_lt. exact Hk'. }
  split; [vm_compute; reflexivity|].
  split.
  { intros k Hk.
    assert (E : forallb (fun k => (k <? 17)%nat
                                  || Qltb (y (flight (k - 1))) (y (flight k)))
                  (seq 0 (S fall_out)) = true) by (vm_compute; reflexivity).
    pose proof (flight_forall _ _ E k ltac:(lia)) as Hk'. simpl in Hk'.
    apply orb_true_iff in Hk'. destruct Hk' as [Hk'|Hk'].
    - apply Nat.ltb_lt in Hk'. lia.
    - apply Qltb_lt. exact Hk'. }
  split.
  { intros k Hk. pose proof (flight_in_bounds k Hk) as Hb.
    unfold out_of_bounds in Hb. apply orb_false_iff in Hb.
    destruct Hb as [Hb1 Hb2]. apply Qltb_ge in Hb1, Hb2. auto. }
  apply Qltb_lt. vm_compute. reflexivity.
Qed.

(** The claim of C6 as the specification words it fails on the very first
    callback: the jump that starts the session throws the bird upwards, from
    250 to 242.5. *)
Lemma first_callback_moves_bird_up :
  let s0 := jump lobby in
  let s1 := gameLoop (mkFrame 100 0) (rerun 99 s0) in
  playing s0 = true
  /\ y (birdRef s0) = 250 # 1
  /\ (y (birdRef s1) == 485 # 2)%Q
  /\ ~ (y (birdRef s0) < y (birdRef s1))%Q.
Proof.
  cbv zeta. repeat split; try (vm_compute; reflexivity).
  vm_compute. discriminate.
Qed.

(** Instance: sixty callbacks after the starting jump. *)
Lemma unattended_session_witness :
  let s' := run (Rerun 99 :: frames 60 99 0) (jump lobby) in
  birdRef s' = flight fall_out /\ gameOver s' = true
  /\ count_sound Hit (sounds s') = 1%nat.
Proof.
  destruct (unattended_session lobby (Rerun 99 :: frames 60 99 0)
              eq_refl eq_refl)
    as (_ & Hb & Ho & _ & Hh & _).
  cbv zeta. split; [exact Hb|]. split; [exact Ho|exact Hh].
Defined.

(** ** The stored high score *)

Lemma digit_not_space (c : N) : is_digit c = true -> is_space c = false.
Proof.
  unfold is_digit. rewrite andb_true_iff, !N.leb_le. intros [H1 H2].
  assert (H : (c = 48 \/ c = 49 \/ c = 50 \/ c = 51 \/ c = 52 \/ c = 53
               \/ c = 54 \/ c = 55 \/ c = 56 \/ c = 57)%N) by lia.
  repeat (destruct H as [->|H]; [reflexivity|]). subst c. reflexivity.
Qed.

Lemma digit_not_sign (c : N) :
  is_digit c = true -> (c =? 45)%N = false /\ (c =? 43)%N = false.
Proof.
  unfold is_digit. rewrite andb_true_iff, !N.leb_le, !N.eqb_neq. lia.
Qed.

Lemma trim_start_spaces (ws t : jsstring) :
  forallb is_space ws = true ->
  match t with c :: _ => is_space c = false | [] => True end ->
  trim_start (ws ++ t) = t.
Proof.
  intros Hws Ht. induction ws as [|w ws IH]; simpl in *.
  - destruct t as [|c t]; [reflexivity|]. simpl. now rewrite Ht.
  - apply andb_true_iff in Hws. destruct Hws as [Hw Hws].
    rewrite Hw. auto.
Qed.

Lemma leading_digits_run (ds rest : jsstring) (a : Z) :
  forallb is_digit ds = true -> starts_with_digit rest = false ->
  leading_digits (Some a) (ds ++ rest)
  = Some (fold_left (fun a c => a * 10 + digit_value c) ds a).
Proof.
  intros Hds Hrest. revert a.
  induction ds as [|d ds IH]; intro a; simpl in *.
  - destruct rest as [|c rest]; [reflexivity|]. simpl in *. now rewrite Hrest.
  - apply andb_true_iff in Hds. destruct Hds as [Hd Hds].
    rewrite Hd. apply IH. exact Hds.
Qed.

Lemma leading_digits_value (ds rest : jsstring) :
  ds <> [] -> forallb is_digit ds = true -> starts_with_digit rest = false ->
  leading_digits None (ds ++ rest) = Some (decimal_value ds).
Proof.
  intros Hne Hds Hrest. destruct ds as [|d ds]; [congruence|].
  simpl in *. apply andb_true_iff in Hds. destruct Hds as [Hd Hds].
  rewrite Hd. rewrite leading_digits_run by assumption. reflexivity.
Qed.

Lemma leading_digits_some (u : jsstring) (a : Z) :
  leading_digits (Some a) u <> None.
Proof.
  revert a. induction u as [|d u IH]; intro a; simpl; [discriminate|].
  destruct (is_digit d); [apply IH|discriminate].
Qed.

Lemma leading_digits_none (u : jsstring) :
  leading_digits None u = None <-> starts_with_digit u = false.
Proof.
  destruct u as [|c u]; simpl; [tauto|].
  destruct (is_digit c); [|tauto].
  split; [|discriminate]. intro H. now apply leading_digits_some in H.
Qed.

Lemma to_double_not_NaN (n : Z) : to_double n <> NaN.
Proof.
  unfold to_double. destruct (_ <? _); [discriminate|].
  cbv zeta. destruct (_ <=? _); discriminate.
Qed.

Lemma to_double_exact (n : Z) : Z.abs n < 2 ^ 53 -> to_double n = Finite n.
Proof.
  intro H. unfold to_double. apply Z.ltb_lt in H. now rewrite H.
Qed.

Lemma parseInt_NaN (s : jsstring) :
  parseInt s = NaN
  <-> starts_with_digit (snd (strip_sign (trim_start s))) = false.
Proof.
  unfold parseInt. destruct (strip_sign (trim_start s)) as [sign u].
  simpl snd. rewrite <- leading_digits_none.
  destruct (leading_digits None u) as [v|]; [|tauto].
  split; [|discriminate]. intro H. now apply to_double_not_NaN in H.
Qed.

Lemma parseInt_value (ws sg ds rest : jsstring) (sign : Z) :
  forallb is_space ws = true ->
  sign_value sg = Some sign ->
  ds <> [] -> forallb is_digit ds = true ->
  starts_with_digit rest = false ->
  parseInt (ws ++ sg ++ ds ++ rest) = to_double (sign * decimal_value ds).
Proof.
  intros Hws Hsg Hne Hds Hrest.
  destruct ds as [|d ds]; [congruence|].
  assert (Hd : is_digit d = true)
    by (simpl in Hds; apply andb_true_iff in Hds; tauto).
  destruct (digit_not_sign d Hd) as [Hd1 Hd2].
  unfold parseInt. rewrite trim_start_spaces; [|exact Hws|].
  - destruct sg as [|c [|c' sg]]; simpl in Hsg; try discriminate.
    + injection Hsg as <-. simpl app at 1. unfold strip_sign.
      simpl app at 1. rewrite Hd1, Hd2.
      change (d :: ds ++ rest) with ((d :: ds) ++ rest).
      now rewrite leading_digits_value.
    + simpl app at 1. unfold strip_sign. cbn [app].
      destruct (c =? 45)%N; [|destruct (c =? 43)%N; [|discriminate]];
        injection Hsg as <-;
        change (d :: ds ++ rest) with ((d :: ds) ++ rest);
        now rewrite leading_digits_value.
  - destruct sg as [|c [|c' sg]]; simpl in Hsg; try discriminate.
    + simpl. now apply digit_not_space.
    + simpl. destruct (N.eqb_spec c 45) as [->|]; [reflexivity|].
      destruct (N.eqb_spec c 43) as [->|]; [reflexivity|discriminate].
Qed.

(** Printing: the digits of [n], and what they fold back to. *)
Lemma digits_of_spec (fuel : nat) :
  forall n acc, 0 <= n < 10 ^ Z.of_nat (S fuel) ->
  exists ds,
    digits_of fuel n acc = ds ++ acc
    /\ ds <> [] /\ forallb is_digit ds = true
    /\ forall a, fold_left (fun a c => a * 10 + digit_value c) ds a
                 = a * 10 ^ Z.of_nat (length ds) + n.
Proof.
  assert (Last : forall n acc, 0 <= n < 10 ->
            exists ds,
              (48 + Z.to_N (n mod 10))%N :: acc = ds ++ acc
              /\ ds <> [] /\ forallb is_digit ds = true
              /\ forall a, fold_left (fun a c => a * 10 + digit_value c) ds a
                           = a * 10 ^ Z.of_nat (length ds) + n).
  { intros n acc Hn. exists [(48 + Z.to_N (n mod 10))%N].
    rewrite Z.mod_small by lia.
    split; [reflexivity|]. split; [discriminate|]. split.
    - cbn [forallb]. unfold is_digit.
      rewrite andb_true_r, andb_true_iff, !N.leb_le. lia.
    - intro a. cbn [fold_left length]. unfold digit_value.
      change (10 ^ Z.of_nat 1) with 10. lia. }
  induction fuel as [|fuel IH]; intros n acc Hn.
  - change (digits_of 0 n acc) with ((48 + Z.to_N (n mod 10))%N :: acc).
    apply Last. change (10 ^ Z.of_nat 1) with 10 in Hn. lia.
  - change (digits_of (S fuel) n acc)
      with (if n <? 10 then (48 + Z.to_N (n mod 10))%N :: acc
            else digits_of fuel (n / 10) ((48 + Z.to_N (n mod 10))%N :: acc)).
    destruct (Z.ltb_spec n 10) as [Hlt|Hge].
    + apply Last. lia.
    + assert (Hq : 0 <= n / 10 < 10 ^ Z.of_nat (S fuel)).
      { split; [apply Z.div_pos; lia|].
        apply Z.div_lt_upper_bound; [lia|].
        replace (Z.of_nat (S (S fuel))) with (Z.of_nat (S fuel) + 1) in Hn
          by lia.
        rewrite Z.pow_add_r, Z.pow_1_r in Hn by lia. lia. }
      destruct (IH (n / 10) ((48 + Z.to_N (n mod 10))%N :: acc) Hq)
        as (ds & E & Hne & Hds & Hfold).
      exists (ds ++ [(48 + Z.to_N (n mod 10))%N]).
      pose proof (Z.mod_pos_bound n 10 ltac:(lia)) as Hm.
      split; [rewrite E, <- app_assoc; reflexivity|].
      split; [destruct ds; discriminate|]. split.
      * rewrite forallb_app, Hds. cbn [forallb andb]. unfold is_digit.
        rewrite andb_true_r, andb_true_iff, !N.leb_le. lia.
      * intro a. rewrite fold_left_app, Hfold, length_app.
        cbn [fold_left length]. unfold digit_value.
        replace (Z.of_nat (length ds + 1)) with (Z.of_nat (length ds) + 1)
          by lia.
        rewrite Z.pow_add_r, Z.pow_1_r by lia.
        pose proof (Z.div_mod n 10 ltac:(lia)). lia.
Qed.

Lemma log2_fuel (a : Z) : 0 <= a -> a < 10 ^ Z.of_nat (S (Z.to_nat (Z.log2 a))).
Proof.
  intro Ha. pose proof (Z.log2_nonneg a) as Hl.
  replace (Z.of_nat (S (Z.to_nat (Z.log2 a)))) with (Z.succ (Z.log2 a))
    by lia.
  destruct (Z.eq_dec a 0) as [->|Hn]; [reflexivity|].
  pose proof (Z.log2_spec a ltac:(lia)) as [_ H2].
  eapply Z.lt_le_trans; [exact H2|].
  apply Z.pow_le_mono_l. lia.
Qed.

Lemma parseInt_toString (n : Z) :
  Z.abs n < 2 ^ 53 -> toString n <> [] /\ parseInt (toString n) = Finite n.
Proof.
  intro Hn. unfold toString.
  destruct (digits_of_spec (Z.to_nat (Z.log2 (Z.abs n))) (Z.abs n) []
              (conj (Z.abs_nonneg n) (log2_fuel (Z.abs n) (Z.abs_nonneg n))))
    as (ds & E & Hne & Hds & Hfold).
  rewrite E, app_nil_r.
  assert (Hval : decimal_value ds = Z.abs n).
  { unfold decimal_value. rewrite Hfold. lia. }
  destruct (Z.ltb_spec n 0) as [Hneg|Hpos].
  - split; [discriminate|].
    pose proof (parseInt_value [] [45%N] ds [] (-1)
                  eq_refl eq_refl Hne Hds eq_refl) as P.
    cbn [app] in P. rewrite app_nil_r in P. rewrite P, Hval.
    replace (-1 * Z.abs n) with n by lia.
    now apply to_double_exact.
  - split; [exact Hne|].
    pose proof (parseInt_value [] [] ds [] 1
                  eq_refl eq_refl Hne Hds eq_refl) as P.
    cbn [app] in P. rewrite app_nil_r in P. rewrite P, Hval.
    replace (1 * Z.abs n) with n by lia.
    now apply to_double_exact.
Qed.

(** What line 38 computes.  The initial high score is 0 when the stored
    item is absent or the empty string.  Otherwise it is
    [parseInt(saved, 10)]: for the decimal numeral of an integer [n] of
    magnitude below [2^53] it is [n]; more generally, after optional leading
    white space and one optional sign, it is the value of the longest run
    of digits, rounded to a double, whatever follows; and it is [NaN]
    exactly when no digit stands there. *)
Theorem initial_high_score :
  initHighScore None = Finite 0
  /\ initHighScore (Some []) = Finite 0
  /\ (forall n, Z.abs n < 2 ^ 53 ->
                 initHighScore (Some (toString n)) = Finite n)
  /\ (forall ws sg ds rest sign,
        forallb is_space ws = true -> sign_value sg = Some sign ->
        ds <> [] -> forallb is_digit ds = true ->
        starts_with_digit rest = false ->
        initHighScore (Some (ws ++ sg ++ ds ++ rest))
        = to_double (sign * decimal_value ds))
  /\ (forall s, s <> [] ->
        (initHighScore (Some s) = NaN
         <-> starts_with_digit (snd (strip_sign (trim_start s))) = false)).
Proof.
  split; [reflexivity|]. split; [reflexivity|]. split; [|split].
  - intros n Hn. destruct (parseInt_toString n Hn) as [Hne Hp].
    unfold initHighScore. destruct (toString n); [congruence|exact Hp].
  - intros ws sg ds rest sign Hws Hsg Hne Hds Hrest.
    rewrite <- (parseInt_value ws sg ds rest sign) by assumption.
    unfold initHighScore.
    destruct (ws ++ sg ++ ds ++ rest) eqn:E; [|reflexivity].
    apply app_eq_nil in E. destruct E as [_ E].
    apply app_eq_nil in E. destruct E as [_ E].
    apply app_eq_nil in E. destruct E as [E _]. congruence.
  - intros s Hs. unfold initHighScore.
    destruct s as [|c s]; [congruence|]. apply parseInt_NaN.
Qed.

(** Instances: a numeral the game wrote, a numeral followed by text, and
    text without digits. *)
Lemma initial_high_score_witness :
  initHighScore (Some (toString 42)) = Finite 42
  /\ initHighScore (Some (codes "  -12px")) = to_double (-1 * 12)
  /\ initHighScore (Some (codes "px12")) = NaN.
Proof.
  destruct initial_high_score as (_ & _ & Hnum & Hrun & Hnan).
  split; [|split].
  - apply (Hnum 42). reflexivity.
  - apply (Hrun (codes "  ") (codes "-") (codes "12") (codes "px") (-1));
      solve [reflexivity | discriminate].
  - apply (Hnan (codes "px12")); [discriminate|reflexivity].
Defined.

(** ** The high score *)

Lemma jump_highScore (s : State) :
  highScore (jump s) = highScore s /\ storage (jump s) = storage s.
Proof.
  unfold jump. destruct (gameStarted s), (gameOver s); simpl; auto.
Qed.

(** One action leaves the high score alone or overwrites it, together with
    the stored item, by a larger score. *)
Lemma step_highScore (a : Action) (s : State) :
  highScore (step s a) = highScore s /\ storage (step s a) = storage s
  \/ exists n, gt_num n (highScore s) = true
               /\ highScore (step s a) = Finite n
               /\ score (step s a) = n
               /\ storage (step s a) = Some (toString n).
Proof.
  destruct a as [f| | |h]; simpl.
  - destruct (playing s) eqn:Hp.
    + rewrite tick_highScore, tick_storage, tick_score by exact Hp.
      destruct (negb _ && gt_num _ _) eqn:E; [right|left; auto].
      apply andb_true_iff in E. destruct E as [_ E].
      eexists. repeat split. exact E.
    + rewrite gameLoop_not_playing by exact Hp. left. auto.
  - left. apply jump_highScore.
  - left. auto.
  - left. auto.
Qed.

(** Throughout a session the high score is the larger of the high score at
    its start and the current score. *)
Lemma session_highScore (h : Z) (acts : list Action) :
  in_session acts = true ->
  forall s, gameStarted s = true ->
            highScore s = Finite (Z.max h (score s)) ->
            highScore (run acts s) = Finite (Z.max h (score (run acts s))).
Proof.
  induction acts as [|a acts IH]; intros Hses s Hgs Hhs; [exact Hhs|].
  simpl in Hses. apply andb_true_iff in Hses. destruct Hses as [Ha Hses].
  change (run (a :: acts) s) with (run acts (step s a)).
  destruct a as [f| | |r]; try discriminate; simpl step.
  - destruct (playing s) eqn:Hp.
    + apply (IH Hses).
      * apply tick_gameStarted. exact Hp.
      * rewrite tick_highScore, tick_score by exact Hp. rewrite Hhs.
        set (n := points_of f s). unfold gt_num.
        destruct (Nat.eqb_spec n 0) as [->|Hn]; simpl negb; cbv iota.
        { simpl. rewrite Z.add_0_r. reflexivity. }
        destruct (Z.ltb_spec (Z.max h (score s)) (score s + Z.of_nat n));
          simpl; f_equal; lia.
    + rewrite gameLoop_not_playing by exact Hp. apply (IH Hses); assumption.
  - apply (IH Hses); unfold jump; rewrite Hgs; simpl;
      destruct (gameOver s); simpl; assumption.
  - apply (IH Hses); assumption.
Qed.

(** C4, the claim as worded fails after a stored negative number: a session
    that ends without a point leaves the high score at -5, which is not the
    larger of -5 and the final score 0. *)
Lemma negative_high_score_survives :
  let s := init (Some (codes "-5")) 1 in
  let s' := run (Jump :: Rerun 2 :: frames 51 2 0) s in
  highScore s = Finite (-5)
  /\ gameOver s' = true /\ score s' = 0
  /\ highScore s' = Finite (-5)
  /\ highScore s' <> Finite (Z.max (-5) (score s')).
Proof.
  cbv zeta. repeat split; try (vm_compute; reflexivity).
  vm_compute. discriminate.
Qed.

(** A score greater than one that is greater than the high score is
    greater than the high score. *)
Lemma gt_num_trans (n m : Z) (h : Num) :
  gt_num n h = true -> gt_num m (Finite n) = true -> gt_num m h = true.
Proof.
  destruct h as [|z|neg]; simpl; intros H1 H2; try assumption.
  apply Z.ltb_lt in H1, H2. apply Z.ltb_lt. lia.
Qed.

(** Over any sequence of actions the high score and the stored item are
    both as they were, or the high score is a greater number and the stored
    item its numeral. *)
Lemma run_highScore (acts : list Action) :
  forall s,
    highScore (run acts s) = highScore s /\ storage (run acts s) = storage s
    \/ exists n, highScore (run acts s) = Finite n
                 /\ gt_num n (highScore s) = true
                 /\ storage (run acts s) = Some (toString n).
Proof.
  induction acts as [|a acts IH]; intro s; [left; split; reflexivity|].
  change (run (a :: acts) s) with (run acts (step s a)).
  destruct (step_highScore a s) as [[H1 H2]|(n & G & H1 & _ & H2)].
  - rewrite <- H1, <- H2. apply IH.
  - destruct (IH (step s a)) as [[K1 K2]|(m & K1 & K2 & K3)]; right.
    + exists n. rewrite K1, K2. auto.
    + exists m. split; [exact K1|]. split; [|exact K3].
      rewrite H1 in K2. exact (gt_num_trans n m _ G K2).
Qed.

Lemma read_numeral (n : Z) :
  Z.abs n < 2 ^ 53 -> initHighScore (Some (toString n)) = Finite n.
Proof.
  intro Hn. destruct (parseInt_toString n Hn) as [Hnil Hp].
  unfold initHighScore. destruct (toString n); [congruence|exact Hp].
Qed.

(** C4, as the code has it.  No callback, jump, reset or effect re-run
    lowers the high score, in memory or in the store: each leaves both the
    high score and the stored item as they are, or replaces the high score
    by a number that compares greater and the stored item by that number's
    decimal numeral; so it is over any sequence of them.  When the stored
    item reads back as the high score, as it does from mounting on, it
    still does after the action (scores below [2^53]), and what it reads
    back as is what it was or a number that compares greater.  Whenever
    the high score changes, it becomes the current score, the stored item
    becomes that score's decimal numeral, and (below [2^53]) reading the
    item back gives the in-memory high score.  In a session started from
    Idle with a high score that is an integer [h >= 0], as it is when the
    store was absent or written by the game, the high score is at every
    moment, and so at the end, the larger of [h] and the score. *)
Theorem high_score_law :
  (forall a s,
     highScore (step s a) = highScore s /\ storage (step s a) = storage s
     \/ exists n, highScore (step s a) = Finite n
                  /\ gt_num n (highScore s) = true
                  /\ storage (step s a) = Some (toString n))
  /\ (forall acts s,
        highScore (run acts s) = highScore s
        /\ storage (run acts s) = storage s
        \/ exists n, highScore (run acts s) = Finite n
                     /\ gt_num n (highScore s) = true
                     /\ storage (run acts s) = Some (toString n))
  /\ (forall a s,
        initHighScore (storage s) = highScore s ->
        Z.abs (score (step s a)) < 2 ^ 53 ->
        initHighScore (storage (step s a)) = highScore (step s a)
        /\ (initHighScore (storage (step s a)) = initHighScore (storage s)
            \/ exists n,
                 initHighScore (storage (step s a)) = Finite n
                 /\ gt_num n (initHighScore (storage s)) = true))
  /\ (forall a s,
        highScore (step s a) <> highScore s ->
        exists n, highScore (step s a) = Finite n
                  /\ score (step s a) = n
                  /\ storage (step s a) = Some (toString n)
                  /\ (Z.abs n < 2 ^ 53 ->
                      initHighScore (storage (step s a))
                      = highScore (step s a)))
  /\ (forall s h acts,
        idle s = true -> highScore s = Finite h -> 0 <= h ->
        in_session acts = true ->
        let s' := run acts (jump s) in
        highScore s' = Finite (Z.max h (score s'))).
Proof.
  split; [|split; [|split; [|split]]].
  - intros a s.
    destruct (step_highScore a s) as [H|(n & G & H & _ & Hst)];
      [left; exact H|right; exists n; auto].
  - intros acts s. apply run_highScore.
  - intros a s Hsync Hn.
    destruct (step_highScore a s) as [[H Hst]|(n & G & H & Hsc & Hst)].
    + rewrite H, Hst. split; [exact Hsync|left; reflexivity].
    + rewrite Hsc in Hn. rewrite H, Hst, (read_numeral n Hn).
      split; [reflexivity|]. right. exists n.
      split; [reflexivity|]. rewrite Hsync. exact G.
  - intros a s Hne.
    destruct (step_highScore a s) as [[H _]|(n & G & H & Hsc & Hst)];
      [contradiction|].
    exists n. repeat split; auto. intro Hn. rewrite Hst, H.
    apply read_numeral. exact Hn.
  - intros s h acts Hidle Hhs Hh Hses s'. subst s'.
    unfold idle in Hidle. apply andb_true_iff in Hidle.
    destruct Hidle as [Hgs Hgo]. apply negb_true_iff in Hgs, Hgo.
    apply session_highScore; [exact Hses| |];
      unfold jump; rewrite Hgs, Hgo; simpl; [reflexivity|].
    rewrite Hhs. f_equal. lia.
Qed.

(** Instance: the session that climbs out of the canvas as its first pipe
    is scored; the last callback raises the high score from 0 to 1, and
    the store, which read back as 0, reads back as 1. *)
Lemma high_score_law_witness :
  let s := run climb (jump lobby) in
  let a := Tick (mkFrame 367 0) in
  highScore s = Finite 0
  /\ highScore (step s a) = Finite 1
  /\ storage (step s a) = Some (toString 1)
  /\ initHighScore (storage (step s a)) = highScore (step s a)
  /\ (exists n, initHighScore (storage (step s a)) = Finite n
                /\ gt_num n (initHighScore (storage s)) = true)
  /\ highScore (run (climb ++ [a]) (jump lobby))
     = Finite (Z.max 0 (score (run (climb ++ [a]) (jump lobby)))).
Proof.
  cbv zeta. destruct high_score_law as (_ & _ & Hsync & Hwrite & Hmax).
  assert (Hne : highScore (step (run climb (jump lobby)) (Tick (mkFrame 367 0)))
                <> highScore (run climb (jump lobby)))
    by (vm_compute; discriminate).
  assert (Hs : initHighScore (storage (run climb (jump lobby)))
               = highScore (run climb (jump lobby)))
    by (vm_compute; reflexivity).
  assert (Hb : Z.abs (score (step (run climb (jump lobby))
                               (Tick (mkFrame 367 0)))) < 2 ^ 53)
    by (vm_compute; reflexivity).
  destruct (Hwrite _ _ Hne) as (n & Hn & Hsc & Hst & Hback).
  destruct (Hsync _ _ Hs Hb) as [_ [Hsame|Hup]].
  { exfalso. revert Hsame. vm_compute. discriminate. }
  assert (E : n = 1) by (rewrite <- Hsc; vm_compute; reflexivity).
  subst n. split; [vm_compute; reflexivity|].
  split; [exact Hn|]. split; [exact Hst|]. split.
  - apply Hback. reflexivity.
  - split; [exact Hup|].
    apply (Hmax lobby 0 (climb ++ [Tick (mkFrame 367 0)]));
      solve [reflexivity | vm_compute; reflexivity | lia
            | vm_compute; discriminate].
Defined.

(** C7: the fallback to zero misses stored text.  Line 38 guards
    [parseInt] with [saved ? ... : 0], which falls back to 0 only when
    nothing or the empty string is stored.  With the text abc stored the
    high score starts as [NaN], not 0, and no score compares greater than
    [NaN]: whatever callbacks, jumps, resets and effect re-runs follow, the
    high score stays [NaN] and the stored item stays as it was.  In the
    session that scores a point, and from an empty store raises the high
    score to 1, it is [NaN] still. *)
Theorem stored_text_breaks_high_score :
  let saved := Some (codes "abc") in
  let acts := frames 97 1 0 ++ Jump :: cruise (999 # 1000) 8 20 in
  initHighScore saved = NaN
  /\ initHighScore saved <> Finite 0
  /\ (forall h acts', highScore (run acts' (init saved h)) = NaN
                      /\ storage (run acts' (init saved h)) = saved)
  /\ score (run acts (init saved 1)) = 1
  /\ highScore (run acts (init saved 1)) = NaN
  /\ highScore (run acts (init None 1)) = Finite 1.
Proof.
  cbv zeta. split; [vm_compute; reflexivity|].
  split; [vm_compute; discriminate|]. split.
  - intros h acts'.
    destruct (run_highScore acts' (init (Some (codes "abc")) h))
      as [H|(n & _ & G & _)]; [exact H|].
    exfalso. revert G. change (gt_num n NaN = true -> False).
    simpl. discriminate.
  - split; [vm_compute; reflexivity|].
    split; vm_compute; reflexivity.
Qed.

(** ** One point per pipe *)

Lemma update_pipes_app (ps qs : list Pipe) :
  update_pipes (ps ++ qs) = update_pipes ps ++ update_pipes qs.
Proof. unfold update_pipes. now rewrite filter_app, map_app. Qed.

Lemma shift_pipe_of_age (age : Z) (top : Q) :
  shift (pipe_of_age age top) = pipe_of_age (age + 1) top.
Proof.
  unfold shift, pipe_of_age, PIPE_SPEED, canvas_width. cbn [x topHeight].
  f_equal. lia.
Qed.

(** A callback ages every listed pipe by one and drops the one aged 284. *)
Lemma update_pipes_from (log : list (option Q)) :
  forall age, update_pipes (pipes_from log age) = pipes_from log (age + 1).
Proof.
  induction log as [|e log IH]; intro age; [reflexivity|].
  cbn [pipes_from]. rewrite update_pipes_app, IH. f_equal.
  destruct e as [top|]; [|reflexivity].
  destruct (Z.leb_spec age 284) as [H|H],
           (Z.leb_spec (age + 1) 284) as [H'|H']; try lia;
    [| |reflexivity].
  - assert (K : kept (pipe_of_age age top) = true).
    { apply kept_iff. unfold pipe_of_age, canvas_width, PIPE_SPEED, PIPE_WIDTH.
      cbn [x]. lia. }
    unfold update_pipes. cbn [filter]. rewrite K. cbn [map].
    now rewrite shift_pipe_of_age.
  - assert (K : kept (pipe_of_age age top) = false).
    { apply dropped_iff.
      unfold pipe_of_age, canvas_width, PIPE_SPEED, PIPE_WIDTH.
      cbn [x]. lia. }
    unfold update_pipes. cbn [filter]. rewrite K. reflexivity.
Qed.

Lemma tick_pipes_from (fr : Z) (r : Q) (log : list (option Q)) :
  update_pipes (generate_pipes fr r (pipes_from log 1))
  = pipes_from (generated fr r :: log) 1.
Proof.
  unfold generate_pipes, generated. cbn [pipes_from].
  destruct (Z.rem fr 100 =? 0).
  - rewrite update_pipes_app, update_pipes_from. reflexivity.
  - rewrite update_pipes_from, app_nil_r. reflexivity.
Qed.

(** Only a pipe of age 268 has its trailing edge in the scoring window: the
    edge is at 51 at age 267 and at 48 at age 268. *)
Lemma in_window_age (age : Z) (top : Q) :
  in_window (pipe_of_age age top) = true <-> age = 268.
Proof.
  unfold in_window, pipe_of_age, canvas_width, PIPE_SPEED, PIPE_WIDTH.
  cbn [x]. rewrite andb_true_iff, !Z.ltb_lt. lia.
Qed.

Lemma window_empty_after (log : list (option Q)) :
  forall age, 268 < age -> filter in_window (pipes_from log age) = [].
Proof.
  induction log as [|e log IH]; intros age Hage; [reflexivity|].
  cbn [pipes_from]. rewrite filter_app, IH by lia.
  destruct e as [top|]; [|reflexivity].
  destruct (age <=? 284); [|reflexivity].
  cbn [filter app].
  destruct (in_window (pipe_of_age age top)) eqn:E; [|reflexivity].
  apply in_window_age in E. lia.
Qed.

Lemma window_from (log : list (option Q)) :
  forall age d, age + Z.of_nat d = 268 ->
  length (filter in_window (pipes_from log age))
  = match nth_error log d with Some (Some _) => 1%nat | _ => 0%nat end.
Proof.
  induction log as [|e log IH]; intros age d Hd.
  - destruct d; reflexivity.
  - cbn [pipes_from]. rewrite filter_app, length_app.
    destruct d as [|d].
    + rewrite window_empty_after by lia. cbn [nth_error length Nat.add].
      destruct e as [top|]; [|reflexivity].
      destruct (Z.leb_spec age 284); [|lia].
      cbn [filter].
      destruct (in_window (pipe_of_age age top)) eqn:E; [reflexivity|].
      apply not_true_iff_false in E. rewrite in_window_age in E. lia.
    + rewrite (IH (age + 1) d) by lia. cbn [nth_error].
      assert (E : filter in_window
                    match e with
                    | Some top =>
                        if age <=? 284 then [pipe_of_age age top] else []
                    | None => []
                    end = []).
      { destruct e as [top|]; [|reflexivity].
        destruct (age <=? 284); [|reflexivity]. cbn [filter].
        destruct (in_window (pipe_of_age age top)) eqn:E; [|reflexivity].
        apply in_window_age in E. lia. }
      rewrite E. cbn [length]. lia.
Qed.

Lemma count_pipes_skipn (log : list (option Q)) :
  forall d,
  count_pipes (skipn d log)
  = (match nth_error log d with Some (Some _) => 1 | _ => 0 end
     + count_pipes (skipn (S d) log))%nat.
Proof.
  induction log as [|e log IH]; intro d.
  - destruct d; reflexivity.
  - destruct d as [|d].
    + cbn [skipn nth_error]. unfold count_pipes. cbn [filter].
      destruct e; reflexivity.
    + cbn [nth_error]. change (skipn (S d) (e :: log)) with (skipn d log).
      change (skipn (S (S d)) (e :: log)) with (skipn (S d) log).
      apply IH.
Qed.

Lemma tick_history (f : Frame) (s : State) (log : list (option Q)) :
  playing s = true -> pipesRef s = pipes_from log 1 ->
  let log' := generated (frameRef s + 1) (rnd f) :: log in
  pipesRef (gameLoop f s) = pipes_from log' 1
  /\ score (gameLoop f s) + Z.of_nat (count_pipes (skipn crossing log))
     = score s + Z.of_nat (count_pipes (skipn crossing log')).
Proof.
  intros Hp Hps log'.
  rewrite tick_score, tick_pipes by exact Hp.
  unfold points_of, next_pipes.
  rewrite Hps, tick_pipes_from. fold log'. split; [reflexivity|].
  rewrite (window_from log' 1 crossing) by reflexivity.
  unfold crossing.
  change (skipn 267 log') with (skipn 266 log).
  rewrite (count_pipes_skipn log 266).
  change (nth_error log' 267) with (nth_error log 266).
  destruct (nth_error log 266) as [[top|]|]; lia.
Qed.

Lemma session_history (acts : list Action) :
  in_session acts = true ->
  forall s log, gameStarted s = true -> pipesRef s = pipes_from log 1 ->
  let log' := history acts s log in
  pipesRef (run acts s) = pipes_from log' 1
  /\ score (run acts s) + Z.of_nat (count_pipes (skipn crossing log))
     = score s + Z.of_nat (count_pipes (skipn crossing log')).
Proof.
  induction acts as [|a acts IH]; intros Hses s log Hgs Hps; [simpl; auto|].
  simpl in Hses. apply andb_true_iff in Hses. destruct Hses as [Ha Hses].
  change (run (a :: acts) s) with (run acts (step s a)).
  cbn [history]. cbv zeta.
  destruct a as [f| | |r]; try discriminate; simpl step.
  - destruct (playing s) eqn:Hp.
    + destruct (tick_history f s log Hp Hps) as [Hps' Hsc'].
      destruct (IH Hses (gameLoop f s) _
                  (tick_gameStarted f s Hp) Hps') as [G1 G2].
      split; [exact G1|]. cbv zeta in G2. lia.
    + rewrite gameLoop_not_playing by exact Hp.
      apply (IH Hses (rerun (raf f) s) log Hgs Hps).
  - assert (E : gameStarted (jump s) = true /\ pipesRef (jump s) = pipesRef s
                /\ score (jump s) = score s)
      by (unfold jump; rewrite Hgs; destruct (gameOver s); simpl; auto).
    destruct E as (E1 & E2 & E3).
    assert (Hh : history acts (jump s) log = history acts (step s Jump) log)
      by reflexivity.
    rewrite <- E3. apply (IH Hses (jump s) log E1). now rewrite E2.
  - apply (IH Hses (rerun r s) log Hgs Hps).
Qed.

(** C2.  In a session started by a jump from Idle, after any callbacks,
    jumps and effect re-runs: the pipe list is exactly the pipes generated
    by the last 284 Playing callbacks, a pipe generated [a] callbacks ago
    (the generating one included) sitting at [800 - 3a]; a pipe's trailing
    edge is in the scoring window only at age 268, when it has just moved
    from 51 to 48 across the bird's position 50; and the score is the number
    of pipes generated at least 267 Playing callbacks before the latest
    one.  So every pipe adds exactly one point, on the callback its trailing
    edge crosses 50, provided the session is still Playing on that callback,
    and nothing else adds a point. *)
Theorem each_pipe_scores_once (s : State) (acts : list Action) :
  idle s = true -> in_session acts = true ->
  let s' := run acts (jump s) in
  let log := history acts (jump s) [] in
  pipesRef s' = pipes_from log 1
  /\ score s' = Z.of_nat (count_pipes (skipn crossing log))
  /\ (forall a top, in_window (pipe_of_age a top) = true
                    <-> a = Z.of_nat crossing + 1)
  /\ (forall top, x (pipe_of_age (Z.of_nat crossing) top) + PIPE_WIDTH = 51
                  /\ x (pipe_of_age (Z.of_nat crossing + 1) top) + PIPE_WIDTH
                     = 48).
Proof.
  intros Hidle Hses s' log.
  unfold idle in Hidle. apply andb_true_iff in Hidle.
  destruct Hidle as [Hgs Hgo]. apply negb_true_iff in Hgs, Hgo.
  assert (E : gameStarted (jump s) = true /\ pipesRef (jump s) = []
              /\ score (jump s) = 0)
    by (unfold jump; rewrite Hgs, Hgo; simpl; auto).
  destruct E as (E1 & E2 & E3).
  destruct (session_history acts Hses (jump s) [] E1 E2) as [G1 G2].
  fold s' in G1, G2. fold log in G1, G2.
  split; [exact G1|]. split.
  - rewrite E3 in G2. unfold crossing in G2 at 1.
    change (count_pipes (skipn 267 [])) with 0%nat in G2. lia.
  - split.
    + intros a top. rewrite in_window_age. unfold crossing. lia.
    + intro top. split; reflexivity.
Qed.

(** Instance: the cruise through the first pipe; one pipe has reached age
    268 and the score is 1. *)
Lemma each_pipe_scores_once_witness :
  let acts := cruise (999 # 1000) 8 20 in
  let s' := run acts (jump lobby) in
  score s' = Z.of_nat (count_pipes (skipn crossing
                                      (history acts (jump lobby) [])))
  /\ score s' = 1
  /\ pipesRef s' = pipes_from (history acts (jump lobby) []) 1.
Proof.
  cbv zeta.
  destruct (each_pipe_scores_once lobby (cruise (999 # 1000) 8 20))
    as (Hps & Hsc & _).
  - reflexivity.
  - vm_compute. reflexivity.
  - split; [exact Hsc|]. split; [vm_compute; reflexivity|exact Hps].
Defined.

(** * Further properties *)

(** ** Invariants of the reachable states *)

Lemma run_preserves (P : State -> Prop) :
  (forall s a, P s -> P (step s a)) ->
  forall acts s, P s -> P (run acts s).
Proof.
  intros Hstep acts. induction acts as [|a acts IH]; intros s Hs; [exact Hs|].
  apply IH, Hstep, Hs.
Qed.

Lemma run_app (acts1 acts2 : list Action) (s : State) :
  run (acts1 ++ acts2) s = run acts2 (run acts1 s).
Proof. apply fold_left_app. Qed.

Lemma playing_or_rerun (f : Frame) (s : State) :
  playing s = true \/ gameLoop f s = rerun (raf f) s.
Proof.
  destruct (playing s) eqn:Hp; [left; reflexivity|right].
  now apply gameLoop_not_playing.
Qed.

Lemma step_flags (s : State) (a : Action) :
  (gameOver s = true -> gameStarted s = true) /\ 0 <= score s ->
  (gameOver (step s a) = true -> gameStarted (step s a) = true)
  /\ 0 <= score (step s a).
Proof.
  intros [Hf Hsc]. destruct a as [f| | |h]; simpl.
  - destruct (playing_or_rerun f s) as [Hp | ->]; [|simpl; auto].
    rewrite tick_gameStarted, tick_score by exact Hp. split; [auto|lia].
  - destruct s as [gs go sc hs b ps fr st snd]. unfold jump. simpl in *.
    destruct gs, go; simpl in *; split; auto; lia.
  - split; [discriminate|lia].
  - auto.
Qed.

(** X1.  In every state the component reaches from mounting, by callbacks,
    jumps, resets and effect re-runs, the session is in exactly one of the
    three states Idle, Playing and GameOver: [gameOver] is never set without
    [gameStarted].  So the start prompt and the game-over panel are never
    shown together, and the score is never negative. *)
Theorem session_state_well_formed (saved : option jsstring) (h : Z)
    (acts : list Action) :
  let s := run acts (init saved h) in
  (gameOver s = true -> gameStarted s = true)
  /\ (idle s = true /\ playing s = false /\ gameOver s = false
      \/ idle s = false /\ playing s = true /\ gameOver s = false
      \/ idle s = false /\ playing s = false /\ gameOver s = true)
  /\ shows_start_prompt s && shows_game_over_panel s = false
  /\ 0 <= score s.
Proof.
  cbv zeta.
  assert (H : (gameOver (run acts (init saved h)) = true ->
               gameStarted (run acts (init saved h)) = true)
              /\ 0 <= score (run acts (init saved h))).
  { apply (run_preserves
             (fun s => (gameOver s = true -> gameStarted s = true)
                       /\ 0 <= score s)).
    - intros s a. apply step_flags.
    - simpl. split; [discriminate|lia]. }
  destruct H as [Hf Hsc]. split; [exact Hf|].
  unfold idle, playing, shows_start_prompt, shows_game_over_panel.
  destruct (gameStarted (run acts (init saved h))),
           (gameOver (run acts (init saved h))); simpl in *;
    repeat split; auto; try tauto.
  specialize (Hf eq_refl). discriminate.
Qed.

(** Instance: the session that ended as its first pipe was scored. *)
Lemma session_state_well_formed_witness :
  let acts := frames 97 1 0 ++ Jump :: climb ++ [Tick (mkFrame 367 0)] in
  gameOver (run acts (init None 1)) = true
  /\ gameStarted (run acts (init None 1)) = true.
Proof.
  cbv zeta.
  assert (Ho : gameOver
                 (run (frames 97 1 0 ++ Jump :: climb
                       ++ [Tick (mkFrame 367 0)]) (init None 1)) = true)
    by (vm_compute; reflexivity).
  split; [exact Ho|].
  destruct (session_state_well_formed None 1
              (frames 97 1 0 ++ Jump :: climb ++ [Tick (mkFrame 367 0)]))
    as [H _].
  exact (H Ho).
Defined.

Lemma step_bird_in_range (s : State) (a : Action) :
  bird_in_range s -> bird_in_range (step s a).
Proof.
  unfold bird_in_range. cbv zeta. intros (Hr & Hfr & Hv & Hy).
  destruct a as [f| | |h]; simpl step.
  - destruct (playing_or_rerun f s) as [Hp | ->]; [|simpl; auto].
    rewrite tick_bird, tick_gameOver by exact Hp.
    unfold next_bird, update_bird. cbn [rotation frame velocity y].
    split; [|split; [|split]].
    + destruct (Z.ltb_spec 70 (rotation (birdRef s) + 2)); lia.
    + pose proof (Z.rem_bound_pos (frame (birdRef s) + 1) 3
                    ltac:(lia) ltac:(lia)). lia.
    + rewrite Qred_correct. unfold JUMP_FORCE, GRAVITY in *. lra.
    + intro Hover. apply orb_false_iff in Hover. destruct Hover as [Hb _].
      unfold out_of_bounds, update_bird in Hb. cbn [y] in Hb.
      apply orb_false_iff in Hb. destruct Hb as [Hb1 Hb2].
      apply Qltb_ge in Hb1, Hb2. auto.
  - destruct s as [gs go sc hs b ps fr st snd].
    unfold jump, JUMP_FORCE, canvas_height in *. simpl in *.
    destruct gs, go; simpl in *;
      repeat split; try lia; try lra; auto;
      try (intros _; split; lra); try (apply Hy; reflexivity).
  - unfold canvas_height, JUMP_FORCE. simpl. repeat split; try lia; try lra.
  - simpl. auto.
Qed.

(** X2.  In every reachable state the bird's rotation lies between -20 and
    70 degrees, its animation index is 0, 1 or 2, its velocity is never
    below the flap impulse -8 (it never rises by more than 8 per callback),
    and as long as the session is not over its position lies within the
    canvas, between 0 and 500. *)
Theorem bird_stays_in_range (saved : option jsstring) (h : Z)
    (acts : list Action) :
  let b := birdRef (run acts (init saved h)) in
  -20 <= rotation b <= 70
  /\ 0 <= frame b <= 2
  /\ (- (8 # 1) <= velocity b)%Q
  /\ (gameOver (run acts (init saved h)) = false ->
      (0 <= y b /\ y b <= 500 # 1)%Q).
Proof.
  apply (run_preserves bird_in_range).
  - intros s a. apply step_bird_in_range.
  - unfold bird_in_range, canvas_height, JUMP_FORCE. simpl.
    repeat split; try lia; try lra.
Qed.

(** Instance: the cruise, 247 callbacks into the session; the bird is
    between 0 and 500. *)
Lemma bird_stays_in_range_witness :
  let acts := frames 97 1 0 ++ Jump :: cruise (4 # 10) 7 30 in
  let b := birdRef (run acts (init None 1)) in
  gameOver (run acts (init None 1)) = false
  /\ (0 <= y b /\ y b <= 500 # 1)%Q.
Proof.
  cbv zeta.
  assert (Ho : gameOver
                 (run (frames 97 1 0 ++ Jump :: cruise (4 # 10) 7 30)
                    (init None 1)) = false)
    by (vm_compute; reflexivity).
  split; [exact Ho|].
  destruct (bird_stays_in_range None 1
              (frames 97 1 0 ++ Jump :: cruise (4 # 10) 7 30))
    as (_ & _ & _ & H).
  exact (H Ho).
Defined.

(** ** Outside Playing *)

Lemma rerun_rerun (h1 h2 : Z) (s : State) :
  rerun h2 (rerun h1 s) = rerun h2 s.
Proof. reflexivity. Qed.

Lemma rerun_same (s : State) : rerun (frameRef s) s = s.
Proof. destruct s. reflexivity. Qed.

Lemma over_step (s0 : State) (a : Action) (h : Z) :
  gameStarted s0 = true -> gameOver s0 = true -> is_reset a = false ->
  exists h', step (rerun h s0) a = rerun h' s0.
Proof.
  intros Hgs Hgo Ha. destruct a as [f| | |r]; try discriminate; simpl.
  - exists (raf f). rewrite gameLoop_not_playing.
    + apply rerun_rerun.
    + unfold playing. simpl. now rewrite Hgs, Hgo.
  - exists h. unfold jump. simpl. now rewrite Hgs, Hgo.
  - exists r. apply rerun_rerun.
Qed.

Lemma idle_step (s0 : State) (a : Action) (h : Z) :
  playing s0 = false -> passive a = true ->
  exists h', step (rerun h s0) a = rerun h' s0.
Proof.
  intros Hp Ha. destruct a as [f| | |r]; try discriminate; simpl.
  - exists (raf f). rewrite gameLoop_not_playing; [apply rerun_rerun|].
    exact Hp.
  - exists r. apply rerun_rerun.
Qed.

(** X3.  Outside Playing nothing moves.  From a state that is not Playing,
    callbacks and effect re-runs change only the stored frame handle; and
    once the session is over the same holds for jumps as well: a click or
    the space bar does not restart the game, only the reset does. *)
Theorem nothing_moves_outside_playing (s : State) (acts : list Action) :
  (playing s = false -> forallb passive acts = true ->
   run acts s = rerun (frameRef (run acts s)) s)
  /\ (gameStarted s = true -> gameOver s = true -> in_session acts = true ->
      run acts s = rerun (frameRef (run acts s)) s).
Proof.
  assert (G : forall (ok : Action -> bool),
            (forall a h, ok a = true ->
                         exists h', step (rerun h s) a = rerun h' s) ->
            forallb ok acts = true ->
            forall h, exists h', run acts (rerun h s) = rerun h' s).
  { intros ok Hok. induction acts as [|a acts IH]; intros Hall h.
    - exists h. reflexivity.
    - simpl in Hall. apply andb_true_iff in Hall. destruct Hall as [Ha Hall].
      destruct (Hok a h Ha) as [h1 E1].
      change (run (a :: acts) (rerun h s))
        with (run acts (step (rerun h s) a)).
      rewrite E1. apply IH. exact Hall. }
  assert (F : forall h', run acts s = rerun h' s ->
                         run acts s = rerun (frameRef (run acts s)) s).
  { intros h' E. rewrite E at 2. simpl. exact E. }
  split.
  - intros Hp Hpas.
    destruct (G passive (fun a h Ha => idle_step s a h Hp Ha) Hpas
                (frameRef s)) as [h' E].
    rewrite rerun_same in E. exact (F h' E).
  - intros Hgs Hgo Hses.
    destruct (G (fun a => negb (is_reset a))
                (fun a h Ha => over_step s a h Hgs Hgo
                                 (proj1 (negb_true_iff _) Ha))
                Hses (frameRef s)) as [h' E].
    rewrite rerun_same in E. exact (F h' E).
Qed.

(** Instance: the session that ended on the first pipe's scoring callback,
    then ten callbacks and a jump. *)
Lemma nothing_moves_outside_playing_witness :
  let s := run (climb ++ [Tick (mkFrame 367 0)]) (jump lobby) in
  let acts := frames 10 367 0 ++ [Jump] in
  run acts s = rerun 377 s /\ score (run acts s) = 1.
Proof.
  cbv zeta.
  destruct (nothing_moves_outside_playing
              (run (climb ++ [Tick (mkFrame 367 0)]) (jump lobby))
              (frames 10 367 0 ++ [Jump])) as [_ H].
  split; [|vm_compute; reflexivity].
  rewrite H by (vm_compute; reflexivity).
  replace (frameRef (run (frames 10 367 0 ++ [Jump])
                       (run (climb ++ [Tick (mkFrame 367 0)]) (jump lobby))))
    with 377 by (vm_compute; reflexivity).
  reflexivity.
Defined.

(** ** The pipe list of a reachable state *)

Lemma step_laid_out (s : State) (a : Action) :
  laid_out s -> laid_out (step s a).
Proof.
  intros [log Hlog]. destruct a as [f| | |h]; simpl step.
  - destruct (playing_or_rerun f s) as [Hp | ->]; [|exists log; exact Hlog].
    exists (generated (frameRef s + 1) (rnd f) :: log).
    rewrite tick_pipes by exact Hp. unfold next_pipes.
    rewrite Hlog. apply tick_pipes_from.
  - destruct s as [gs go sc hs b ps fr st snd]. unfold jump. simpl in *.
    destruct gs, go; simpl; solve [exists log; exact Hlog | now exists []].
  - now exists [].
  - exists log. exact Hlog.
Qed.

Lemma reachable_laid_out (saved : option jsstring) (h : Z)
    (acts : list Action) :
  laid_out (run acts (init saved h)).
Proof.
  apply (run_preserves laid_out).
  - intros s a. apply step_laid_out.
  - now exists [].
Qed.

Lemma pipes_from_range (log : list (option Q)) :
  forall age, 1 <= age ->
  Forall (fun p => - PIPE_WIDTH <= x p <= canvas_width - PIPE_SPEED * age
                   /\ (canvas_width - x p) mod PIPE_SPEED = 0)
    (pipes_from log age).
Proof.
  induction log as [|e log IH]; intros age Hage; [constructor|].
  cbn [pipes_from]. apply Forall_app. split.
  - eapply Forall_impl; [|apply (IH (age + 1)); lia].
    cbn beta. unfold PIPE_SPEED. intros p [H1 H2]. split; [lia|exact H2].
  - destruct e as [top|]; [|constructor].
    destruct (Z.leb_spec age 284); constructor; [|constructor].
    unfold pipe_of_age, PIPE_WIDTH, canvas_width, PIPE_SPEED. cbn [x].
    split; [lia|].
    replace (800 - (800 - 3 * age)) with (age * 3) by lia.
    apply Z.mod_mul. lia.
Qed.

Lemma sorted_app (l1 l2 : list Z) (m : Z) :
  StronglySorted Z.lt l1 -> StronglySorted Z.lt l2 ->
  Forall (fun a => a <= m) l1 -> Forall (fun b => m < b) l2 ->
  StronglySorted Z.lt (l1 ++ l2).
Proof.
  intros H1 H2 Hle Hlt. induction H1 as [|a l1 Hs IH Ha]; [exact H2|].
  simpl. inversion Hle as [|? ? Hm Hle']; subst. constructor.
  - apply IH. exact Hle'.
  - apply Forall_app. split; [exact Ha|].
    eapply Forall_impl; [|exact Hlt]. cbn beta. intros b Hb. lia.
Qed.

Lemma pipes_from_sorted (log : list (option Q)) :
  forall age, 1 <= age ->
  StronglySorted Z.lt (map x (pipes_from log age)).
Proof.
  induction log as [|e log IH]; intros age Hage; [constructor|].
  cbn [pipes_from]. rewrite map_app.
  apply (sorted_app _ _ (canvas_width - PIPE_SPEED * (age + 1))).
  - apply IH. lia.
  - destruct e as [top|]; [|constructor].
    destruct (age <=? 284); repeat constructor.
  - apply Forall_forall. intros a Ha. apply in_map_iff in Ha.
    destruct Ha as (p & <- & Hp).
    pose proof (pipes_from_range log (age + 1) ltac:(lia)) as R.
    rewrite Forall_forall in R. apply (R p Hp).
  - destruct e as [top|]; [|constructor].
    destruct (age <=? 284); repeat constructor.
    unfold pipe_of_age, canvas_width, PIPE_SPEED. cbn [x]. lia.
Qed.

(** X4.  In every reachable state the pipes are listed from left to right
    at strictly increasing positions, so no two pipes share a position;
    every pipe is between -52 and 797, at 800 minus a multiple of the pipe
    speed 3. *)
Theorem pipes_lie_in_order (saved : option jsstring) (h : Z)
    (acts : list Action) :
  let ps := pipesRef (run acts (init saved h)) in
  StronglySorted Z.lt (map x ps)
  /\ NoDup (map x ps)
  /\ Forall (fun p => -52 <= x p <= 797 /\ (800 - x p) mod 3 = 0) ps.
Proof.
  cbv zeta. destruct (reachable_laid_out saved h acts) as [log ->].
  pose proof (pipes_from_sorted log 1 ltac:(lia)) as Hs.
  split; [exact Hs|]. split.
  - clear -Hs. induction Hs as [|a l Hs IH Ha]; constructor; [|exact IH].
    intro Hin. rewrite Forall_forall in Ha. specialize (Ha a Hin). lia.
  - eapply Forall_impl; [|apply (pipes_from_range log 1); lia].
    cbn beta. unfold PIPE_WIDTH, canvas_width, PIPE_SPEED. intros p H.
    split; [lia|tauto].
Qed.

Lemma window_at_most_one (log : list (option Q)) :
  (length (filter in_window (pipes_from log 1)) <= 1)%nat.
Proof.
  rewrite (window_from log 1 crossing) by reflexivity.
  destruct (nth_error log crossing) as [[top|]|]; lia.
Qed.

(** X5.  From any reachable state, a callback leaves the score as it is or
    adds exactly one point: two pipes never score on the same callback. *)
Theorem one_point_per_callback (saved : option jsstring) (h : Z)
    (acts : list Action) (f : Frame) :
  let s := run acts (init saved h) in
  score (gameLoop f s) = score s \/ score (gameLoop f s) = score s + 1.
Proof.
  cbv zeta. set (s := run acts (init saved h)).
  destruct (playing_or_rerun f s) as [Hp | ->]; [|left; reflexivity].
  destruct (step_laid_out s (Tick f) (reachable_laid_out saved h acts))
    as [log Hlog].
  simpl step in Hlog. rewrite tick_score by exact Hp. unfold points_of.
  rewrite <- tick_pipes by exact Hp. rewrite Hlog.
  pose proof (window_at_most_one log) as H.
  destruct (length (filter in_window (pipes_from log 1))) as [|[|n]];
    [left|right|]; lia.
Qed.

(** ** The store and the high score *)

Lemma step_in_sync (n : Z) (s : State) (a : Action) :
  n + 1 < 2 ^ 53 -> in_sync n s -> in_sync (n + 1) (step s a).
Proof.
  intros Hn (Hlay & Hsc & Hst).
  split; [apply step_laid_out; exact Hlay|].
  assert (Hpt : 0 <= score (step s a) <= n + 1).
  { destruct a as [f| | |h]; simpl step.
    - destruct (playing_or_rerun f s) as [Hp | ->]; [|simpl; lia].
      destruct (step_laid_out s (Tick f) Hlay) as [log Hlog].
      simpl step in Hlog. rewrite tick_score by exact Hp. unfold points_of.
      rewrite <- tick_pipes by exact Hp. rewrite Hlog.
      pose proof (window_at_most_one log). lia.
    - destruct s as [gs go sc hs b ps fr st snd]. unfold jump. simpl in *.
      destruct gs, go; simpl; lia.
    - simpl. lia.
    - simpl. lia. }
  split; [exact Hpt|].
  destruct (step_highScore a s) as [[H1 H2]|(m & _ & H1 & H2 & H3)].
  - now rewrite H1, H2.
  - rewrite H1, H3. destruct (parseInt_toString m) as [Hne Hp]; [lia|].
    unfold initHighScore. destruct (toString m); [congruence|exact Hp].
Qed.

(** X6.  The stored item always reads back as the high score in memory:
    after any sequence of fewer than [2^53] callbacks, jumps, resets and
    effect re-runs from mounting, with whatever was stored before, mounting
    the component again on the stored item gives the same high score. *)
Theorem store_reads_back (saved : option jsstring) (h : Z)
    (acts : list Action) :
  Z.of_nat (length acts) < 2 ^ 53 ->
  let s := run acts (init saved h) in
  initHighScore (storage s) = highScore s
  /\ forall h', highScore (init (storage s) h') = highScore s.
Proof.
  intros Hlen s.
  assert (G : forall acts s0 n,
            n + Z.of_nat (length acts) < 2 ^ 53 -> in_sync n s0 ->
            in_sync (n + Z.of_nat (length acts)) (run acts s0)).
  { clear. induction acts as [|a acts IH]; intros s0 n Hn Hs.
    - simpl. now rewrite Z.add_0_r.
    - change (run (a :: acts) s0) with (run acts (step s0 a)).
      simpl length in *.
      replace (n + Z.of_nat (S (length acts)))
        with (n + 1 + Z.of_nat (length acts)) in * by lia.
      apply IH; [exact Hn|]. apply step_in_sync; [lia|exact Hs]. }
  destruct (G acts (init saved h) 0) as (_ & _ & H).
  - lia.
  - split; [now exists []|]. split; [simpl; lia|reflexivity].
  - split; [exact H|]. intro h'. exact H.
Qed.

(** Instance: the session in which the first pipe is scored; the store
    holds the numeral 1 and reads back as 1. *)
Lemma store_reads_back_witness :
  let acts := frames 97 1 0 ++ Jump :: climb ++ [Tick (mkFrame 367 0)] in
  let s := run acts (init None 1) in
  storage s = Some (codes "1") /\ highScore s = Finite 1
  /\ initHighScore (storage s) = highScore s.
Proof.
  cbv zeta. split; [vm_compute; reflexivity|].
  split; [vm_compute; reflexivity|].
  assert (Hlen : Z.of_nat (length (frames 97 1 0 ++ Jump :: climb
                                   ++ [Tick (mkFrame 367 0)])) < 2 ^ 53)
    by (vm_compute; reflexivity).
  destruct (store_reads_back None 1
              (frames 97 1 0 ++ Jump :: climb ++ [Tick (mkFrame 367 0)])
              Hlen) as [H _].
  exact H.
Defined.

(** ** The arc of a flap *)

Lemma running_sum_closed (v : Q) (n : nat) :
  (running_sum (fun k => v + nQ k * GRAVITY) n
   == nQ n * v + nQ n * (nQ n + 1) / (4 # 1))%Q.
Proof.
  induction n as [|n IH].
  - unfold nQ. simpl. reflexivity.
  - cbn [running_sum]. rewrite IH, nQ_succ. unfold GRAVITY. field.
Qed.

(** Integer facts about the arc, moved to the rationals. *)
Lemma nQ_square_bound (n : nat) (a b : Z) :
  0 <= Z.of_nat n * Z.of_nat n + a * Z.of_nat n + b ->
  (0 <= nQ n * nQ n + inject_Z a * nQ n + inject_Z b)%Q.
Proof.
  intro H. unfold nQ.
  rewrite <- !inject_Z_mult, <- !inject_Z_plus.
  change 0%Q with (inject_Z 0). rewrite <- Zle_Qle. lia.
Qed.

Lemma arc_lowest (n : nat) : (- (60 # 1) <= arc n)%Q.
Proof.
  pose proof (nQ_square_bound n (-31) 240) as H.
  assert (Hz : 0 <= Z.of_nat n * Z.of_nat n + -31 * Z.of_nat n + 240).
  { replace (Z.of_nat n * Z.of_nat n + -31 * Z.of_nat n + 240)
      with ((Z.of_nat n - 15) * (Z.of_nat n - 16)) by ring.
    destruct (Z_le_gt_dec (Z.of_nat n) 15);
      [apply Z.mul_nonpos_nonpos|apply Z.mul_nonneg_nonneg]; lia. }
  specialize (H Hz). unfold arc. simpl inject_Z in H.
  set (a := nQ n) in *.
  assert (E : (a * (a + 1) / (4 # 1) - (8 # 1) * a + (60 # 1)
               == (a * a + (-31 # 1) * a + (240 # 1)) / (4 # 1))%Q) by field.
  assert (G : (0 <= (a * a + (-31 # 1) * a + (240 # 1)) / (4 # 1))%Q).
  { apply Qle_shift_div_l; [reflexivity|]. rewrite Qmult_0_l. exact H. }
  rewrite <- E in G. lra.
Qed.

Lemma arc_falls_out (n : nat) : (63 <= n)%nat -> ((500 # 1) < arc n)%Q.
Proof.
  intro Hn.
  pose proof (nQ_square_bound n (-31) (-2001)) as H.
  assert (Hz : 0 <= Z.of_nat n * Z.of_nat n + -31 * Z.of_nat n + -2001).
  { replace (Z.of_nat n * Z.of_nat n + -31 * Z.of_nat n + -2001)
      with ((Z.of_nat n - 63) * (Z.of_nat n + 32) + 15) by ring.
    pose proof (Z.mul_nonneg_nonneg (Z.of_nat n - 63) (Z.of_nat n + 32)).
    lia. }
  specialize (H Hz). unfold arc. simpl inject_Z in H.
  set (a := nQ n) in *.
  assert (E : (a * (a + 1) / (4 # 1) - (8 # 1) * a - (500 # 1) - (1 # 4)
               == (a * a + (-31 # 1) * a + (-2001 # 1)) / (4 # 1))%Q)
    by field.
  assert (G : (0 <= (a * a + (-31 # 1) * a + (-2001 # 1)) / (4 # 1))%Q).
  { apply Qle_shift_div_l; [reflexivity|]. rewrite Qmult_0_l. exact H. }
  rewrite <- E in G. lra.
Qed.

Lemma nQ_nonneg (n : nat) : (0 <= nQ n)%Q.
Proof.
  unfold nQ. change 0%Q with (inject_Z 0). rewrite <- Zle_Qle. lia.
Qed.

(** Position after [n] callbacks without input, from any bird. *)
Lemma iter_position (b : Bird) (n : nat) :
  (y (Nat.iter n update_bird b)
   == y b + nQ n * velocity b + nQ n * (nQ n + 1) / (4 # 1))%Q.
Proof.
  destruct (iter_update_bird b n) as [_ Hy].
  rewrite Hy, running_sum_closed. ring.
Qed.

(** X7.  After a flap during play, with no further input and as long as
    the session stays Playing: [n] callbacks later the bird is at its flap
    position plus [n(n+1)/4 - 8n]; it is never more than 60 above the flap
    position, and after 31 callbacks it is back exactly at the flap
    position. *)
Theorem flap_arc (s : State) (acts : list Action) :
  playing s = true ->
  forallb passive acts = true ->
  all_playing acts (jump s) = true ->
  let n := ticks acts in
  let y0 := y (birdRef s) in
  let b := birdRef (run acts (jump s)) in
  (y b == y0 + arc n)%Q
  /\ (y0 - (60 # 1) <= y b)%Q
  /\ (n = 31%nat -> (y b == y0)%Q).
Proof.
  intros Hp Hpas Hall n y0 b. subst b.
  rewrite passive_run_bird by assumption. fold n.
  assert (Hj : y (birdRef (jump s)) = y0
               /\ velocity (birdRef (jump s)) = JUMP_FORCE).
  { destruct (playing_flags s Hp) as [Hgs Hgo].
    unfold jump. rewrite Hgs, Hgo. simpl. auto. }
  destruct Hj as [Hy Hv].
  assert (E : (y (Nat.iter n update_bird (birdRef (jump s)))
               == y0 + arc n)%Q).
  { rewrite iter_position, Hy, Hv. unfold arc, JUMP_FORCE. ring. }
  split; [exact E|]. split.
  - rewrite E. pose proof (arc_lowest n). lra.
  - intros ->. rewrite E.
    assert (A : (arc 31 == 0)%Q) by (vm_compute; reflexivity).
    rewrite A. ring.
Qed.

(** Instance: the first round of the cruise, 31 callbacks after a flap at
    250 made 31 callbacks into the session. *)
Lemma flap_arc_witness :
  let s := run (cruise 0 0 31) (jump lobby) in
  (y (birdRef s) == 250 # 1
   /\ y (birdRef (run (frames 31 130 0) (jump s))) == 250 # 1)%Q.
Proof.
  cbv zeta.
  destruct (flap_arc (run (cruise 0 0 31) (jump lobby)) (frames 31 130 0))
    as (_ & _ & Hback); try (vm_compute; reflexivity).
  split; [vm_compute; reflexivity|].
  rewrite (Hback eq_refl). vm_compute. reflexivity.
Defined.

(** ** A session left alone ends *)

Lemma over_stays (acts : list Action) :
  forallb passive acts = true ->
  forall s, gameOver s = true -> gameOver (run acts s) = true.
Proof.
  induction acts as [|a acts IH]; intros Hpas s Hs; [exact Hs|].
  simpl in Hpas. apply andb_true_iff in Hpas. destruct Hpas as [Ha Hpas].
  apply (IH Hpas). destruct a as [f| | |h]; try discriminate; simpl.
  - rewrite gameLoop_not_playing; [exact Hs|].
    unfold playing. rewrite Hs. apply andb_false_r.
  - exact Hs.
Qed.

Lemma still_playing (acts : list Action) :
  forallb passive acts = true ->
  forall s, gameStarted s = true -> gameOver (run acts s) = false ->
            all_playing acts s = true.
Proof.
  induction acts as [|a acts IH]; intros Hpas s Hgs Hend; [reflexivity|].
  simpl in Hpas. apply andb_true_iff in Hpas. destruct Hpas as [Ha Hpas].
  change (run (a :: acts) s) with (run acts (step s a)) in Hend.
  assert (Hnow : gameOver s = false).
  { destruct (gameOver s) eqn:E; [|reflexivity].
    assert (Hpas' : forallb passive (a :: acts) = true)
      by (simpl; now rewrite Ha).
    pose proof (over_stays (a :: acts) Hpas' s E) as Ho.
    change (run (a :: acts) s) with (run acts (step s a)) in Ho.
    congruence. }
  assert (Hp : playing s = true)
    by (unfold playing; rewrite Hgs, Hnow; reflexivity).
  cbn [all_playing]. rewrite Hp.
  replace (if is_tick a then true else true) with true
    by (destruct (is_tick a); reflexivity).
  apply (IH Hpas); [|exact Hend].
  destruct a as [f| | |h]; try discriminate; simpl.
  - apply tick_gameStarted. exact Hp.
  - exact Hgs.
Qed.

(** X8.  A started session left without input is over within 63 callbacks,
    wherever the bird is and however it moves: from any reachable state in
    which the game has started, after callbacks and effect re-runs that
    include at least 63 callbacks, the session is in GameOver. *)
Theorem session_left_alone_ends (saved : option jsstring) (h : Z)
    (before acts : list Action) :
  let s := run before (init saved h) in
  gameStarted s = true ->
  forallb passive acts = true ->
  (63 <= ticks acts)%nat ->
  gameOver (run acts s) = true.
Proof.
  intros s Hgs Hpas Hn.
  destruct (gameOver (run acts s)) eqn:Hend; [reflexivity|exfalso].
  pose proof (still_playing acts Hpas s Hgs Hend) as Hall.
  assert (Hr0 : bird_in_range s).
  { apply (run_preserves bird_in_range).
    - intros s0 a. apply step_bird_in_range.
    - unfold bird_in_range, canvas_height, JUMP_FORCE. simpl.
      repeat split; try lia; try lra. }
  assert (Hr1 : bird_in_range (run acts s))
    by (apply (run_preserves bird_in_range);
        [intros s0 a; apply step_bird_in_range|exact Hr0]).
  destruct Hr1 as (_ & _ & _ & Hy1). specialize (Hy1 Hend).
  destruct Hr0 as (_ & _ & Hv0 & Hy0).
  assert (Hnow : gameOver s = false).
  { destruct (gameOver s) eqn:E; [|reflexivity].
    rewrite (over_stays acts Hpas s E) in Hend. discriminate. }
  specialize (Hy0 Hnow).
  rewrite (passive_run_bird acts s Hpas Hall) in Hy1.
  rewrite iter_position in Hy1.
  pose proof (arc_falls_out (ticks acts) Hn) as Harc.
  pose proof (nQ_nonneg (ticks acts)) as Hq.
  unfold arc, JUMP_FORCE, canvas_height in *.
  set (a := nQ (ticks acts)) in *. set (v := velocity (birdRef s)) in *.
  assert (Hav : (0 <= a * (v + (8 # 1)))%Q)
    by (apply Qmult_le_0_compat; [exact Hq|lra]).
  assert (E : (a * (v + (8 # 1)) == a * v + (8 # 1) * a)%Q) by ring.
  rewrite E in Hav. lra.
Qed.

(** Instance: the session started from the lobby, 63 callbacks. *)
Lemma session_left_alone_ends_witness :
  gameOver (run (frames 63 99 0)
              (run (frames 97 1 0 ++ [Jump; Rerun 99]) (init None 1)))
  = true.
Proof.
  apply (session_left_alone_ends None 1 (frames 97 1 0 ++ [Jump; Rerun 99])
           (frames 63 99 0)).
  - vm_compute. reflexivity.
  - vm_compute. reflexivity.
  - vm_compute. lia.
Defined.

(** ** Crashes and what is drawn *)

Lemma run_fits (acts : list Action) :
  Forall valid_action acts ->
  forall s, Forall gap_fits (pipesRef s) ->
            Forall gap_fits (pipesRef (run acts s)).
Proof.
  induction 1 as [|a acts Ha _ IH]; intros s Hs; [exact Hs|].
  apply IH, step_fits; assumption.
Qed.

Lemma hit_is_visible (b : Bird) (p : Pipe) :
  gap_fits p -> hits b p = true ->
  intersects (bird_box b) (top_segment p)
  \/ intersects (bird_box b) (bottom_segment p).
Proof.
  intros [Hlo Hhi] Hhit.
  destruct (hits_sound b p Hhit) as [_ Hov].
  unfold overlaps in Hov. apply andb_true_iff in Hov.
  destruct Hov as [Hx1 Hx2]. apply Z.ltb_lt in Hx1, Hx2.
  unfold intersects, bird_box, top_segment, bottom_segment.
  cbn [rect_left rect_right rect_top rect_bottom].
  unfold BIRD_WIDTH, PIPE_WIDTH, BIRD_HEIGHT, PIPE_GAP, canvas_height in *.
  destruct (hits_reach b p Hhit) as [[H1 H2]|[H1 H2]];
    unfold BIRD_HEIGHT, PIPE_GAP in *; [left|right];
    repeat split; try lia; lra.
Qed.

Lemma flaps_valid (k period : nat) (r : Q) :
  unit_interval r -> forall h, Forall valid_action (flaps k period h r).
Proof.
  intro Hr. induction k as [|k IH]; intro h; simpl; [constructor|].
  apply Forall_app. split; [apply frames_valid; exact Hr|].
  constructor; [exact I|apply IH].
Qed.

Lemma cruise_valid (r : Q) (k n : nat) :
  unit_interval r -> Forall valid_action (cruise r k n).
Proof.
  intro Hr. unfold cruise. constructor; [exact I|].
  apply Forall_app. split; [apply flaps_valid|apply frames_valid]; exact Hr.
Qed.

(** X9.  No phantom crash.  When a Playing callback from a reachable state
    ends the session, the bird has left the canvas (above 0 or below 500)
    or its sprite box, 34 by 24 from (50, y), shares an area with the top
    or the bottom segment of a pipe as it is drawn on that callback. *)
Theorem crash_is_visible (saved : option jsstring) (h : Z)
    (acts : list Action) (f : Frame) :
  Forall valid_action acts -> unit_interval (rnd f) ->
  let s := run acts (init saved h) in
  gameOver s = false ->
  gameOver (gameLoop f s) = true ->
  let b := birdRef (gameLoop f s) in
  (y b < 0 \/ 500 # 1 < y b)%Q
  \/ exists p, In p (pipesRef (gameLoop f s))
               /\ (intersects (bird_box b) (top_segment p)
                   \/ intersects (bird_box b) (bottom_segment p)).
Proof.
  intros Hacts Hf s Hnot Hover b.
  assert (Hp : playing s = true).
  { destruct (playing s) eqn:E; [reflexivity|].
    rewrite gameLoop_not_playing in Hover by exact E. simpl in Hover.
    congruence. }
  assert (Hfit : Forall gap_fits (pipesRef (gameLoop f s))).
  { apply (step_fits (Tick f) s Hf).
    apply (run_fits acts Hacts). constructor. }
  apply crash_iff in Hover; [|exact Hp]. fold b in Hover.
  destruct Hover as [Hout|(p & Hin & Hhit)].
  - left. unfold out_of_bounds in Hout. apply orb_true_iff in Hout.
    unfold canvas_height in Hout.
    destruct Hout as [H|H]; apply Qltb_lt in H; auto.
  - right. exists p. split; [exact Hin|].
    rewrite Forall_forall in Hfit. apply hit_is_visible; auto.
Qed.

(** Instance: the cruise with a gap from 150 to 300, left alone after the
    seventh flap: the bird sinks into the bottom segment of the first
    pipe. *)
Lemma crash_is_visible_witness :
  let acts := frames 97 1 0 ++ Jump :: cruise (4 # 10) 7 36 in
  let s' := gameLoop (mkFrame 353 (4 # 10)) (run acts (init None 1)) in
  gameOver s' = true
  /\ exists p, In p (pipesRef s')
               /\ intersects (bird_box (birdRef s')) (bottom_segment p).
Proof.
  cbv zeta. split; [vm_compute; reflexivity|].
  destruct (crash_is_visible None 1
              (frames 97 1 0 ++ Jump :: cruise (4 # 10) 7 36)
              (mkFrame 353 (4 # 10))) as [[H|H]|(p & Hin & [H|H])].
  - apply Forall_app. split.
    + apply frames_valid. split; [discriminate|reflexivity].
    + constructor; [exact I|]. apply cruise_valid.
      split; [discriminate|reflexivity].
  - split; [discriminate|reflexivity].
  - vm_compute. reflexivity.
  - vm_compute. reflexivity.
  - exfalso. revert H. vm_compute. discriminate.
  - exfalso. revert H. vm_compute. discriminate.
  - exfalso. destruct H as (_ & _ & H & _).
    assert (L : map topHeight
                  (pipesRef
                     (gameLoop (mkFrame 353 (4 # 10))
                        (run (frames 97 1 0 ++ Jump :: cruise (4 # 10) 7 36)
                           (init None 1))))
                = repeat (topHeight (new_pipe (4 # 10))) 3)
      by (vm_compute; reflexivity).
    assert (T : topHeight p = topHeight (new_pipe (4 # 10))).
    { apply (in_map topHeight) in Hin. rewrite L in Hin.
      now apply repeat_spec in Hin. }
    unfold top_segment, bird_box in H. cbn [rect_top rect_bottom] in H.
    rewrite T in H. revert H. vm_compute. discriminate.
  - exists p. split; [exact Hin|exact H].
Defined.

(** X10.  The gap is safe.  On a Playing callback, if the bird's new
    position is within the canvas and, for every pipe that then overlaps
    the bird horizontally, between the two ends of that pipe's gap, the
    session stays Playing. *)
Theorem gap_is_safe (f : Frame) (s : State) :
  playing s = true ->
  let b := update_bird (birdRef s) in
  (0 <= y b /\ y b <= canvas_height)%Q ->
  (forall p, In p (pipesRef (gameLoop f s)) -> overlaps p = true ->
             (topHeight p <= y b /\ y b <= topHeight p + PIPE_GAP)%Q) ->
  playing (gameLoop f s) = true /\ gameOver (gameLoop f s) = false.
Proof.
  intros Hp b [Hy0 Hy1] Hgap.
  assert (Hover : gameOver (gameLoop f s) = false).
  { apply not_true_iff_false. intro Hover.
    apply crash_iff in Hover; [|exact Hp].
    rewrite tick_bird in Hover by exact Hp.
    unfold next_bird in Hover. fold b in Hover.
    destruct Hover as [Hout|(p & Hin & Hhit)].
    - unfold out_of_bounds in Hout. apply orb_true_iff in Hout.
      destruct Hout as [H|H]; apply Qltb_lt in H; lra.
    -
      destruct (hits_sound b p Hhit) as [Hout Hov].
      destruct (Hgap p Hin Hov) as [H1 H2].
      unfold outside_gap in Hout. apply orb_true_iff in Hout.
      destruct Hout as [H|H]; apply Qltb_lt in H; lra. }
  split; [|exact Hover].
  unfold playing. rewrite tick_gameStarted, Hover by exact Hp. reflexivity.
Qed.

(** Instance: the cruise through a gap from 150 to 300, on a callback on
    which the first pipe spans [56, 108] and the bird is at 250. *)
Lemma gap_is_safe_witness :
  let s := run (cruise (4 # 10) 7 30) (jump lobby) in
  let s' := gameLoop (mkFrame 347 (4 # 10)) s in
  (exists p, In p (pipesRef s') /\ overlaps p = true)
  /\ playing s' = true.
Proof.
  cbv zeta. split.
  - exists (mkPipe 56 (topHeight (new_pipe (4 # 10)))).
    split; vm_compute; auto.
  - apply (gap_is_safe (mkFrame 347 (4 # 10))
             (run (cruise (4 # 10) 7 30) (jump lobby))).
    + vm_compute. reflexivity.
    + vm_compute. split; discriminate.
    + intros p Hin Hov. revert Hin Hov. vm_compute.
      intros [<-|[<-|[<-|[]]]] Hov; try discriminate.
      split; discriminate.
Defined.

(** ** The timeline of a pipe *)

Lemma iter_shift (r : Q) (a : nat) :
  Nat.iter a shift (new_pipe r)
  = pipe_of_age (Z.of_nat a) (topHeight (new_pipe r)).
Proof.
  induction a as [|a IH]; [reflexivity|].
  change (Nat.iter (S a) shift (new_pipe r))
    with (shift (Nat.iter a shift (new_pipe r))).
  rewrite IH, shift_pipe_of_age. f_equal. lia.
Qed.

(** X11.  The timeline of a pipe.  A pipe generated at the right edge and
    shifted [a] times overlaps the bird horizontally exactly for [a] from
    239 to 267, 29 callbacks in a row; it is in the scoring window exactly
    at [a = 268], the callback after the overlap ends; and it passes the
    filter of the pipe list exactly as long as [a < 284]. *)
Theorem pipe_timeline (r : Q) (a : nat) :
  let p := Nat.iter a shift (new_pipe r) in
  x p = 800 - 3 * Z.of_nat a
  /\ (overlaps p = true <-> (239 <= a <= 267)%nat)
  /\ (in_window p = true <-> a = 268%nat)
  /\ (kept p = true <-> (a < 284)%nat)
  /\ (forall b, hits b p = true -> (239 <= a <= 267)%nat).
Proof.
  cbv zeta. rewrite iter_shift.
  assert (Hov : overlaps (pipe_of_age (Z.of_nat a) (topHeight (new_pipe r)))
                = true <-> (239 <= a <= 267)%nat).
  { unfold overlaps, pipe_of_age, canvas_width, PIPE_SPEED, BIRD_WIDTH,
      PIPE_WIDTH. cbn [x]. rewrite andb_true_iff, !Z.ltb_lt. lia. }
  split; [reflexivity|]. split; [exact Hov|]. split; [|split].
  - rewrite in_window_age. lia.
  - rewrite kept_iff.
    unfold pipe_of_age, canvas_width, PIPE_SPEED, PIPE_WIDTH. cbn [x]. lia.
  - intros b Hhit. apply Hov. apply (hits_sound b _ Hhit).
Qed.

(** Instance: a pipe of top height 150 shifted 250 times is at 50, over
    the bird; a bird at 140, within 24 of the top segment's end, hits it. *)
Lemma pipe_timeline_witness :
  let p := Nat.iter 250 shift (new_pipe (4 # 10)) in
  x p = 50 /\ overlaps p = true
  /\ hits (mkBird (140 # 1) 0 0 0) p = true.
Proof.
  cbv zeta.
  destruct (pipe_timeline (4 # 10) 250) as (Hx & Hov & _ & _ & Hhit).
  split; [exact Hx|]. split.
  - apply Hov. lia.
  - assert (E : hits (mkBird (140 # 1) 0 0 0)
                  (Nat.iter 250 shift (new_pipe (4 # 10))) = true)
      by (vm_compute; reflexivity).
    pose proof (Hhit _ E). exact E.
Defined.

(** ** The wing animation *)

(** X12.  For a frame counter that is not negative, [getBirdSprite] always
    finds one of the three sprites: the one numbered by the tens of the
    counter modulo 3.  So the sprite is the same for the ten counters of a
    decade, and the animation repeats every 30 counters. *)
Theorem wing_animation (fr : Z) :
  0 <= fr ->
  getBirdSprite fr = nth_error sprites (Z.to_nat ((fr / 10) mod 3))
  /\ (exists sp, getBirdSprite fr = Some sp)
  /\ getBirdSprite fr = getBirdSprite (10 * (fr / 10))
  /\ getBirdSprite (fr + 30) = getBirdSprite fr.
Proof.
  intro Hfr.
  assert (Hq : 0 <= fr / 10) by (apply Z.div_pos; lia).
  assert (E : forall g, 0 <= g ->
            getBirdSprite g = nth_error sprites (Z.to_nat ((g / 10) mod 3))).
  { intros g Hg. unfold getBirdSprite. cbv zeta.
    assert (0 <= g / 10) by (apply Z.div_pos; lia).
    rewrite Z.rem_mod_nonneg by lia.
    pose proof (Z.mod_pos_bound (g / 10) 3 ltac:(lia)).
    destruct (Z.ltb_spec ((g / 10) mod 3) 0); [lia|reflexivity]. }
  split; [apply E; exact Hfr|]. split; [|split].
  - rewrite (E fr Hfr).
    pose proof (Z.mod_pos_bound (fr / 10) 3 ltac:(lia)) as Hm.
    assert (Hc : (fr / 10) mod 3 = 0 \/ (fr / 10) mod 3 = 1
                 \/ (fr / 10) mod 3 = 2) by lia.
    destruct Hc as [-> | [-> | ->]]; simpl; eauto.
  - rewrite (E fr Hfr), (E (10 * (fr / 10))) by lia.
    rewrite (Z.mul_comm 10), Z.div_mul by lia. reflexivity.
  - rewrite (E fr Hfr), (E (fr + 30)) by lia.
    replace (fr + 30) with (fr + 3 * 10) by lia.
    rewrite Z.div_add by lia.
    replace (fr / 10 + 3) with (fr / 10 + 1 * 3) by lia.
    rewrite Z.mod_add by lia. reflexivity.
Qed.

(** Instance: the counters 100 to 109 draw the second sprite, 110 the
    third. *)
Lemma wing_animation_witness :
  getBirdSprite 107 = Some Midflap
  /\ getBirdSprite 107 = getBirdSprite 100
  /\ getBirdSprite 137 = getBirdSprite 107
  /\ getBirdSprite 110 = Some Downflap.
Proof.
  destruct (wing_animation 107) as (H1 & _ & H2 & H3); [lia|].
  split; [rewrite H1; reflexivity|].
  split; [exact H2|]. split; [exact H3|reflexivity].
Defined.

(** ** The cloud layer *)

(** Just above 100 the doubles are [2^-46] apart. *)
Lemma round_pos_above_100 (p : Q) :
  (0 < p)%Q -> ((100 # 1) < round_pos p)%Q ->
  ((100 # 1) + pow2 (-46) <= round_pos p)%Q.
Proof.
  intros Hp H.
  pose proof (round_pos_upper p Hp) as U.
  set (E := Z.max (exponent p) (-1022)) in *.
  assert (HE : 6 <= E).
  { assert (L : (pow2 6 < pow2 (E + 1))%Q).
    { apply Qlt_le_trans with (round_pos p); [|exact U].
      apply Qle_lt_trans with (100 # 1); [|exact H].
      vm_compute. discriminate. }
    apply Qpower_lt_compat_l_inv in L; [lia|reflexivity]. }
  destruct (Z.le_gt_cases E 52) as [Hs|Hb].
  - assert (P : ((100 # 1) == inject_Z (100 * 2 ^ (52 - E)) * ulp p)%Q).
    { unfold ulp. fold E. rewrite inject_Z_mult, pow2_inject by lia.
      rewrite <- Qmult_assoc, <- pow2_add.
      replace (52 - E + (E - 52)) with 0 by lia.
      unfold pow2. simpl. ring. }
    unfold round_pos in *. rewrite P in H.
    apply Qmult_lt_r in H; [|apply ulp_pos].
    rewrite <- Zlt_Qlt in H.
    apply Qle_trans
      with (inject_Z (100 * 2 ^ (52 - E) + 1) * ulp p)%Q.
    + rewrite inject_Z_plus.
      setoid_replace ((inject_Z (100 * 2 ^ (52 - E)) + inject_Z 1) * ulp p)%Q
        with (inject_Z (100 * 2 ^ (52 - E)) * ulp p + ulp p)%Q by ring.
      rewrite <- P. apply Qplus_le_r. unfold ulp. fold E.
      apply pow2_le. lia.
    + apply Qmult_le_compat_r; [|apply Qlt_le_weak, ulp_pos].
      rewrite <- Zle_Qle. lia.
  - assert (He : exponent p = E) by (unfold E in *; lia).
    apply Qle_trans with (pow2 53); [vm_compute; discriminate|].
    apply Qle_trans with (pow2 (exponent p)); [apply pow2_le; lia|].
    apply round_pos_lower; [exact Hp|lia].
Qed.

Lemma round64_nonneg (q : Q) : (0 <= q)%Q -> (0 <= round64 q)%Q.
Proof.
  intro H. apply round64_ge; [vm_compute; reflexivity|exact H].
Qed.

Lemma round64_below_minus_100 (q : Q) :
  (round64 q < - (100 # 1))%Q -> (round64 q <= - (100 # 1) - pow2 (-46))%Q.
Proof.
  intro H.
  destruct (Qnum_sign q) as [[E Z0]|[(p & E & P)|(p & E & N & M & _)]].
  - exfalso. pose proof (round64_nonneg q). lra.
  - exfalso. pose proof (round64_nonneg q). lra.
  - unfold round64 in *. rewrite E in *. rewrite Qred_correct in *.
    pose proof (round_pos_above_100 (- q) M). lra.
Qed.

(** A sum that is not rounded to a negative number is not below -100 to
    begin with, when its first term is a double. *)
Lemma double_plus_100 (q : Q) :
  (0 <= round64 (round64 q + (100 # 1)))%Q -> (- (100 # 1) <= round64 q)%Q.
Proof.
  intro H.
  destruct (Qlt_le_dec (round64 q) (- (100 # 1))) as [L|G]; [|exact G].
  exfalso. pose proof (round64_below_minus_100 q L) as B.
  assert (C : (round64 (round64 q + (100 # 1)) <= - pow2 (-46))%Q).
  { apply round64_le; [vm_compute; reflexivity|lra]. }
  pose proof (pow2_pos (-46)). lra.
Qed.

Lemma draw_scaled (r c : Q) :
  (0 <= r /\ r < 1)%Q -> (0 <= c)%Q -> (round64 c == c)%Q ->
  (0 <= round64 (r * c) /\ round64 (r * c) <= c)%Q.
Proof.
  intros [H0 H1] Hc Hd. split.
  - apply round64_nonneg. apply Qmult_le_0_compat; assumption.
  - apply round64_le; [exact Hd|].
    setoid_replace c with (1 * c)%Q at 2 by ring.
    apply Qmult_le_compat_r; [lra|exact Hc].
Qed.

Lemma double_sum (a m c : Q) :
  (round64 a == a)%Q -> (0 <= m /\ m <= c)%Q ->
  (a <= round64 (a + m) /\ round64 (a + m) <= round64 (a + c))%Q.
Proof.
  intros Ha [H0 H1]. split.
  - apply round64_ge; [exact Ha|lra].
  - apply round64_mono. lra.
Qed.

(** A draw scaled and shifted as the cloud literals are. *)
Lemma draw_in_range (r a c hi : Q) :
  unit_interval r -> (round64 a == a)%Q -> (0 <= c)%Q ->
  (round64 c == c)%Q -> (round64 (a + c) == hi)%Q ->
  (a <= round64 (a + round64 (r * c))
   /\ round64 (a + round64 (r * c)) <= hi)%Q.
Proof.
  intros Hr Ha Hc Hd Hs.
  pose proof (draw_scaled r c Hr Hc Hd) as Hm.
  pose proof (double_sum a (round64 (r * c)) c Ha Hm) as [L U].
  split; [exact L|]. rewrite <- Hs. exact U.
Qed.

Lemma draw_speed (r : Q) :
  unit_interval r ->
  (literal (3 # 10)
   <= round64 (literal (3 # 10) + round64 (r * literal (4 # 10)))
   /\ round64 (literal (3 # 10) + round64 (r * literal (4 # 10)))
      <= literal (7 # 10))%Q.
Proof.
  intro Hr. apply draw_in_range; [exact Hr|vm_compute; reflexivity
    |vm_compute; discriminate|vm_compute; reflexivity
    |vm_compute; reflexivity].
Qed.

Lemma draw_scale (r : Q) :
  unit_interval r ->
  (1 # 2 <= round64 (literal (5 # 10) + round64 (r * literal (5 # 10)))
   /\ round64 (literal (5 # 10) + round64 (r * literal (5 # 10))) <= 1)%Q.
Proof.
  intro Hr.
  destruct (draw_in_range r (literal (5 # 10)) (literal (5 # 10)) 1 Hr)
    as [L U]; [vm_compute; reflexivity|vm_compute; discriminate
    |vm_compute; reflexivity|vm_compute; reflexivity|].
  split; [|exact U].
  apply Qle_trans with (literal (5 # 10)); [vm_compute; discriminate|exact L].
Qed.

Lemma draw_opacity (r : Q) :
  unit_interval r ->
  (literal (4 # 10)
   <= round64 (literal (4 # 10) + round64 (r * literal (3 # 10)))
   /\ round64 (literal (4 # 10) + round64 (r * literal (3 # 10)))
      <= literal (7 # 10))%Q.
Proof.
  intro Hr. apply draw_in_range; [exact Hr|vm_compute; reflexivity
    |vm_compute; discriminate|vm_compute; reflexivity
    |vm_compute; reflexivity].
Qed.

Lemma draw_coordinate (r : Q) (k : positive) :
  unit_interval r -> (round64 (Zpos k # 1) == Zpos k # 1)%Q ->
  (0 <= round64 (r * (Zpos k # 1))
   /\ round64 (r * (Zpos k # 1)) <= Zpos k # 1)%Q.
Proof.
  intros Hr Hk. apply draw_scaled; [exact Hr|discriminate|exact Hk].
Qed.

Lemma new_cloud_in_range (rand : nat -> Q) (i : nat) :
  (forall k, unit_interval (rand k)) -> cloud_in_range (new_cloud rand i).
Proof.
  intro Hr. unfold cloud_in_range, new_cloud, canvas_width.
  cbn [cloud_x cloud_y speed scale opacity].
  change (inject_Z 800) with (800 # 1).
  destruct (draw_coordinate (rand i) 800 (Hr i)) as [X0 X1];
    [vm_compute; reflexivity|].
  destruct (draw_coordinate (rand (i + 1)%nat) 200 (Hr _)) as [Y0 Y1];
    [vm_compute; reflexivity|].
  destruct (draw_speed (rand (i + 2)%nat) (Hr _)) as [S0 S1].
  destruct (draw_scale (rand (i + 3)%nat) (Hr _)) as [C0 C1].
  destruct (draw_opacity (rand (i + 4)%nat) (Hr _)) as [O0 O1].
  split; [lra|]. split; [lra|]. split; [exact Y0|]. split; [exact Y1|].
  split; [exact S0|]. split; [exact S1|]. split; [exact C0|].
  split; [exact C1|]. split; [exact O0|exact O1].
Qed.

Lemma init_clouds_in_range (rand : nat -> Q) (n : nat) :
  (forall k, unit_interval (rand k)) ->
  forall i, Forall cloud_in_range (init_clouds rand i n).
Proof.
  intro Hr. induction n as [|n IH]; intro i; simpl; constructor.
  - apply new_cloud_in_range, Hr.
  - apply IH.
Qed.

Lemma update_cloud_in_range (rand : nat -> Q) (i : nat) (c : Cloud) :
  (forall k, unit_interval (rand k)) -> cloud_in_range c ->
  cloud_in_range (fst (update_cloud rand i c))
  /\ speed (fst (update_cloud rand i c)) = speed c
  /\ scale (fst (update_cloud rand i c)) = scale c.
Proof.
  intros Hr Hc. unfold update_cloud. cbv zeta.
  destruct (Qltb (round64 (round64 (cloud_x c - speed c) + (100 # 1))) 0)
    eqn:E; cbn [fst speed scale]; (split; [|split; reflexivity]);
    unfold cloud_in_range, canvas_width in *;
    cbn [cloud_x cloud_y speed scale opacity];
    change (inject_Z 800) with (800 # 1) in *;
    destruct Hc as (X0 & X1 & Y0 & Y1 & S0 & S1 & C0 & C1 & O0 & O1).
  - destruct (draw_coordinate (rand i) 200 (Hr i)) as [A0 A1];
      [vm_compute; reflexivity|].
    destruct (draw_opacity (rand (i + 1)%nat) (Hr _)) as [B0 B1].
    split; [lra|]. split; [lra|]. split; [exact A0|]. split; [exact A1|].
    split; [exact S0|]. split; [exact S1|]. split; [exact C0|].
    split; [exact C1|]. split; [exact B0|exact B1].
  - apply Qltb_ge in E.
    split; [apply double_plus_100; exact E|]. split.
    { assert (P : (0 <= literal (3 # 10))%Q) by (vm_compute; discriminate).
      apply round64_le; [vm_compute; reflexivity|lra]. }
    split; [exact Y0|]. split; [exact Y1|].
    split; [exact S0|]. split; [exact S1|]. split; [exact C0|].
    split; [exact C1|]. split; [exact O0|exact O1].
Qed.

(** The bounds are reached, and the decimal fractions are not doubles: a
    draw of [1 - 2^-53] gives the scale 1 and the speed [0.7], and the
    double [0.3] lies below 3/10. *)
Lemma new_cloud_samples :
  let c := new_cloud (fun _ => 1 - (1 # 2 ^ 53))%Q 0 in
  (scale c == 1 /\ speed c == literal (7 # 10)
   /\ literal (3 # 10) < 3 # 10
   /\ speed (new_cloud (fun _ => 0) 0) == literal (3 # 10))%Q.
Proof.
  cbv zeta. split; [vm_compute; reflexivity|].
  split; [vm_compute; reflexivity|].
  split; vm_compute; reflexivity.
Qed.

Lemma update_clouds_in_range (rand : nat -> Q) (cs : list Cloud) :
  (forall k, unit_interval (rand k)) ->
  forall i, Forall cloud_in_range cs ->
  Forall cloud_in_range (fst (update_clouds rand i cs))
  /\ map speed (fst (update_clouds rand i cs)) = map speed cs
  /\ map scale (fst (update_clouds rand i cs)) = map scale cs.
Proof.
  intro Hr. induction cs as [|c cs IH]; intros i Hcs; [simpl; auto|].
  inversion Hcs as [|? ? Hc Hcs']; subst.
  cbn [update_clouds].
  destruct (update_cloud_in_range rand i c Hr Hc) as (H1 & H2 & H3).
  destruct (update_cloud rand i c) as [c' j]. cbn [fst] in *.
  destruct (IH j Hcs') as (G1 & G2 & G3).
  destruct (update_clouds rand j cs) as [cs'' k]. cbn [fst map] in *.
  split; [constructor; assumption|]. split; congruence.
Qed.

(** X13.  The five clouds made at mounting, and the clouds after the cloud
    passes of any sequence of callbacks, jumps, resets and effect re-runs,
    whatever [Math.random()] returns in [0, 1), with every operation
    rounded to a double: there are always five; each stays horizontally
    between -100 and 900, that is within 100 of the canvas, with height in
    [0, 200] and opacity between the doubles [0.4] and [0.7]; and each
    keeps the speed, between the doubles [0.3] and [0.7], and the scale, in
    [0.5, 1], it was made with.  All bounds are inclusive. *)
Theorem clouds_stay_in_range (rand : nat -> Q) (acts : list Action)
    (s : State) :
  (forall k, unit_interval (rand k)) ->
  let start := init_clouds rand 0 5 in
  let cs := fst (cloud_run rand acts s 25 start) in
  length start = 5%nat
  /\ Forall cloud_in_range start
  /\ length cs = 5%nat
  /\ Forall cloud_in_range cs
  /\ map speed cs = map speed start
  /\ map scale cs = map scale start.
Proof.
  intros Hr start cs.
  assert (Hstart : Forall cloud_in_range start).
  { apply init_clouds_in_range, Hr. }
  assert (G : forall acts s i cs0,
            Forall cloud_in_range cs0 ->
            Forall cloud_in_range (fst (cloud_run rand acts s i cs0))
            /\ map speed (fst (cloud_run rand acts s i cs0)) = map speed cs0
            /\ map scale (fst (cloud_run rand acts s i cs0))
               = map scale cs0).
  { clear -Hr. induction acts as [|a acts IH]; intros s i cs0 H0;
      [simpl; auto|].
    cbn [cloud_run].
    assert (P : Forall cloud_in_range (fst (cloud_pass s rand i cs0))
                /\ map speed (fst (cloud_pass s rand i cs0)) = map speed cs0
                /\ map scale (fst (cloud_pass s rand i cs0))
                   = map scale cs0).
    { unfold cloud_pass. destruct (playing s); [|simpl; auto].
      apply update_clouds_in_range; assumption. }
    destruct a as [f| | |h]; try exact (IH _ i cs0 H0).
    destruct (cloud_pass s rand i cs0) as [cs1 j]. cbn [fst] in P.
    destruct P as (P1 & P2 & P3).
    destruct (IH (step s (Tick f)) j cs1 P1) as (A & B & C).
    split; [exact A|]. split; congruence. }
  destruct (G acts s 25%nat start Hstart) as (G1 & G2 & G3).
  fold cs in G1, G2, G3.
  split; [reflexivity|]. split; [exact Hstart|]. split.
  - rewrite <- (length_map speed), G2, length_map. reflexivity.
  - auto.
Qed.

(** Instance: every draw is 1/2; the clouds start at 400 with speed 1/2
    and after the 60 callbacks of an unattended session, 51 of them
    Playing, are at 374.5. *)
Lemma clouds_stay_in_range_witness :
  let rand := fun _ : nat => 1 # 2 in
  let cs := fst (cloud_run rand (frames 60 99 0) (jump lobby) 25
                   (init_clouds rand 0 5)) in
  length cs = 5%nat /\ Forall cloud_in_range cs
  /\ map (fun c => Qred (cloud_x c)) cs = repeat (749 # 2) 5.
Proof.
  cbv zeta.
  destruct (clouds_stay_in_range (fun _ : nat => 1 # 2) (frames 60 99 0)
              (jump lobby)) as (_ & _ & H1 & H2 & _).
  - intro k. split; [discriminate|reflexivity].
  - split; [exact H1|]. split; [exact H2|]. vm_compute. reflexivity.
Defined.
